(** * calendar-feed-aggregator: the event extractor, the fan-in
      aggregator and the calendar combiner

    A shallow embedding of [fetcher.FetchICS] (fetcher.go), of
    [aggregateICS] and of [combineCalendars] (main.go), with the properties
    the specification states about them.

    Go strings are modelled as [string] (sequences of bytes), the sends
    on [eventChan] as the list of values sent, in order, and the
    goroutines of [aggregateICS] as an interleaving transition system. *)

From Stdlib Require Import Ascii.
From stdpp Require Import base option list strings gmap sorting.
From stdpp Require Import pretty.

(** ** Go strings *)

Module GoString.

(** [strings.Join(ls, "")]: the concatenation of a list of strings. *)
Fixpoint join (ls : list string) : string :=
  match ls with
  | [] => ""
  | l :: ls => l +:+ join ls
  end.

(** The byte [c] occurs in [s]. *)
Fixpoint occurs (c : ascii) (s : string) : bool :=
  match s with
  | "" => false
  | String d s => bool_decide (d = c) || occurs c s
  end.

End GoString.

Import GoString.

(** ** fetcher.go: FetchICS *)

Module Fetcher.

Definition LF : ascii := "010"%char.
Definition CR : ascii := "013"%char.

(** The two line terminators, "\n" and "\r\n". *)
Definition nl : string := String LF "".
Definition crnl : string := String CR (String LF "").

(** The four string literals the loop compares a line with. *)
Definition BEGIN_CRLF : string := "BEGIN:VEVENT" +:+ crnl.
Definition BEGIN_LF : string := "BEGIN:VEVENT" +:+ nl.
Definition END_CRLF : string := "END:VEVENT" +:+ crnl.
Definition END_LF : string := "END:VEVENT" +:+ nl.

(** [line == "BEGIN:VEVENT\r\n" || line == "BEGIN:VEVENT\n"] *)
Definition is_begin (line : string) : bool :=
  bool_decide (line = BEGIN_CRLF) || bool_decide (line = BEGIN_LF).

(** [line == "END:VEVENT\r\n" || line == "END:VEVENT\n"] *)
Definition is_end (line : string) : bool :=
  bool_decide (line = END_CRLF) || bool_decide (line = END_LF).

(** The errors [ReadString] can return: [io.EOF], or any other error. *)
Inductive error := EOF | ErrRead.

Global Instance error_eq_dec : EqDecision error.
Proof. solve_decision. Defined.

(** [bufio.NewReader(resp.Body)]: the bytes the body still delivers, and
    the error it reports once they are used up ([io.EOF] for a complete
    response, another error for an interrupted one). *)
Record Reader := mkReader { unread : string; ending : error }.

(** The outcome of [http.Get(url)]: an error, or a response whose body
    is read through a [Reader]. *)
Inductive Response :=
| GetFailed
| GetOk (body : Reader).

(** Cut [s] after the first occurrence of [delim]: the bytes up to and
    including the delimiter, and the bytes after it. *)
Fixpoint cut (delim : ascii) (s : string) : option (string * string) :=
  match s with
  | "" => None
  | String c s' =>
      if decide (c = delim) then Some (String c "", s')
      else match cut delim s' with
           | Some (line, rest) => Some (String c line, rest)
           | None => None
           end
  end.

(** [reader.ReadString(delim)]: reads until the first occurrence of
    [delim] and returns the bytes up to and including it; when the
    body ends before a delimiter is found, returns the bytes read so
    far together with the error. *)
Definition ReadString (reader : Reader) (delim : ascii)
  : string * option error * Reader :=
  match cut delim (unread reader) with
  | Some (line, rest) => (line, None, mkReader rest (ending reader))
  | None => (unread reader, Some (ending reader), mkReader "" (ending reader))
  end.

(** The local variables of the loop: [event] and [inEvent]. *)
Record locals := mkLocals { event : string; inEvent : bool }.

Definition Idle : locals := mkLocals "" false.

(** The body of the [for] loop below the two error checks (lines 45-60
    of fetcher.go): the new locals and the values sent on [eventChan]. *)
Definition on_line (line : string) (st : locals) : locals * list string :=
  if is_begin line then
    (* inEvent = true; event = line; continue *)
    (mkLocals line true, [])
  else if inEvent st then
    let event' := event st +:+ line in
    if is_end line then
      (* eventChan <- event; inEvent = false; event = "" *)
      (mkLocals "" false, [event'])
    else (mkLocals event' true, [])
  else (st, []).

(** The [for] loop. [fuel] bounds the number of iterations; [None] is
    returned only when it runs out. The result is the list of values
    sent on [eventChan] from this iteration on. *)
Fixpoint loop (fuel : nat) (url : string) (reader : Reader) (st : locals)
  : option (list string) :=
  match fuel with
  | 0 => None
  | S fuel =>
      let '(line, err, reader) := ReadString reader LF in
      match err with
      | Some ErrRead =>
          (* eventChan <- "Error reading response body: " + url; return *)
          Some ["Error reading response body: " +:+ url]
      | Some EOF =>
          (* break; if event != "" { eventChan <- event } *)
          Some (if decide (event st = "") then [] else [event st])
      | None =>
          let '(st, sent) := on_line line st in
          (sent ++.) <$> loop fuel url reader st
      end
  end.

(** [FetchICS(url, eventChan)], given the outcome of [http.Get(url)]:
    the values sent on [eventChan], in order. Every iteration of the
    loop but the last consumes at least one byte, so one more iteration
    than there are bytes is enough ([FetchICS_total]). *)
Definition FetchICS (url : string) (get : Response) : option (list string) :=
  match get with
  | GetFailed => Some ["Error fetching URL: " +:+ url]
  | GetOk reader =>
      loop (S (String.length (unread reader))) url reader Idle
  end.

(** *** Vocabulary of the specification *)

(** The terminated lines of [s], in order, and the unterminated rest. *)
Fixpoint lines (s : string) : list string * string :=
  match s with
  | "" => ([], "")
  | String c s' =>
      let '(ls, rest) := lines s' in
      if decide (c = LF) then (nl :: ls, rest)
      else match ls with
           | [] => ([], String c rest)
           | l :: ls => (String c l :: ls, rest)
           end
  end.

(** The loop body iterated over a list of lines. *)
Fixpoint scan (ls : list string) (st : locals) : locals * list string :=
  match ls with
  | [] => (st, [])
  | l :: ls =>
      let '(st, sent) := on_line l st in
      let '(st', sent') := scan ls st in
      (st', sent ++ sent')
  end.

(** What the function sends when [ReadString] returns an error. *)
Definition at_end (url : string) (err : error) (st : locals) : list string :=
  match err with
  | ErrRead => ["Error reading response body: " +:+ url]
  | EOF => if decide (event st = "") then [] else [event st]
  end.

(** A RawLine: bytes without a line feed, followed by a line feed. *)
Definition terminated (l : string) : Prop :=
  ∃ s, l = s +:+ nl ∧ occurs LF s = false.

(** A line that is neither marker. *)
Definition ordinary (l : string) : Prop :=
  terminated l ∧ is_begin l = false ∧ is_end l = false.

(** An EventUnit of the happy path: a begin-marker line, lines that are
    neither marker, an end-marker line. *)
Definition complete_unit (u : string) : Prop :=
  ∃ b mid e, is_begin b = true ∧ Forall ordinary mid ∧ is_end e = true ∧
             u = b +:+ join mid +:+ e.

(** A partial unit: a begin-marker line and lines that are neither
    marker; no end-marker line. *)
Definition partial_unit (u : string) : Prop :=
  ∃ b mid, is_begin b = true ∧ Forall ordinary mid ∧ u = b +:+ join mid.

(** The locals between iterations: outside an event the buffer is
    empty, inside an event it is a partial unit. *)
Definition between_lines (st : locals) : Prop :=
  if inEvent st then partial_unit (event st) else event st = "".

(** A body made of the lines [ls], each followed by the terminator
    [term]. *)
Definition render (term : string) (ls : list string) : string :=
  join (map (λ l, l +:+ term) ls).

(** Every line feed of [s] preceded by a carriage return. *)
Fixpoint to_crlf (s : string) : string :=
  match s with
  | "" => ""
  | String c s =>
      if decide (c = LF) then String CR (String LF (to_crlf s))
      else String c (to_crlf s)
  end.

(** The locals of a run on the CR-LF rendering, from those of the run
    on the LF rendering. *)
Definition locals_crlf (st : locals) : locals :=
  mkLocals (to_crlf (event st)) (inEvent st).

(** A line's text, without terminator: no carriage return, no line
    feed. *)
Definition plain (l : string) : Prop :=
  occurs CR l = false ∧ occurs LF l = false.

End Fetcher.

(** ** golang-ical: the calendar objects [combineCalendars] works on *)

Module Ical.

(** Pointers ([*Calendar], [*VEvent]). *)
Abbreviation ptr := positive.

(** [IANAProperty]: the token, the parameters and the raw value of one
    content line, as in "DTSTART;VALUE=DATE:20230101". *)
Record IANAProperty := mkProperty {
  IANAToken : string;
  ICalParameters : list (string * list string);
  Value : string
}.

(** [VEvent]: a component and its properties, in order. *)
Record VEvent := mkVEvent { Properties : list IANAProperty }.

(** An element of [Calendar.Components]: a [*VEvent], or a component of
    another type (time zone, to-do, ...). *)
Inductive Component :=
| CompVEvent (e : ptr)
| CompOther (name : string).

Record Calendar := mkCalendar {
  Components : list Component;
  CalendarProperties : list IANAProperty
}.

(** The objects behind the pointers. *)
Record heap := mkHeap {
  vevents : gmap ptr VEvent;
  calendars : gmap ptr Calendar
}.

Definition ComponentPropertyDtStart : string := "DTSTART".
Definition ComponentPropertySummary : string := "SUMMARY".

(** [ics.NewCalendar()]: a new calendar without components, with its
    version and product id. *)
Definition NewCalendar (h : heap) : heap * ptr :=
  let cal := fresh (dom (calendars h)) in
  let c := mkCalendar []
             [mkProperty "VERSION" [] "2.0";
              mkProperty "PRODID" [] "-//arran4//Golang ICS Library"] in
  (mkHeap (vevents h) (<[cal := c]> (calendars h)), cal).

(** The loop of [calendar.Events()]: the components that are events,
    in order. *)
Definition events_of (c : Calendar) : list ptr :=
  omap (λ comp, match comp with
                | CompVEvent e => Some e
                | CompOther _ => None
                end) (Components c).

(** [calendar.Events()]: a new slice with the events among the
    components, in order. [None] is the nil-pointer panic. *)
Definition Events (h : heap) (cal : ptr) : option (list ptr) :=
  c ← calendars h !! cal;
  Some (events_of c).

(** [calendar.AddVEvent(e)]: appends to the components. *)
Definition AddVEvent (h : heap) (cal : ptr) (e : ptr) : option heap :=
  c ← calendars h !! cal;
  Some (mkHeap (vevents h)
          (<[cal := mkCalendar (Components c ++ [CompVEvent e])
                      (CalendarProperties c)]> (calendars h))).

(** [event.GetProperty(token)]: the first property with that token, or
    nil (the inner [None]). The outer [None] is the nil-pointer panic. *)
Definition GetProperty (h : heap) (e : ptr) (token : string)
  : option (option IANAProperty) :=
  ev ← vevents h !! e;
  Some (List.find (λ p, bool_decide (IANAToken p = token)) (Properties ev)).

End Ical.

(** ** main.go: combineCalendars *)

Module Combiner.
Import Ical.

(** [events[i].GetProperty(ics.ComponentPropertyDtStart).Value]: reading
    [Value] through the nil pointer that [GetProperty] returns for an
    event without that property panics ([None]). *)
Definition startTime (h : heap) (e : ptr) : option string :=
  p ← GetProperty h e ComponentPropertyDtStart;
  Value <$> p.

(** The function literal passed to [sort.Slice]: [startTimeI <
    startTimeJ], the comparison of Go strings, byte by byte. *)
Definition less (h : heap) (ei ej : ptr) : option bool :=
  startTimeI ← startTime h ei;
  startTimeJ ← startTime h ej;
  Some (String.ltb startTimeI startTimeJ).

(** [for _, event := range events { combinedCal.AddVEvent(event) }] *)
Fixpoint AddVEvents (h : heap) (cal : ptr) (events : list ptr) : option heap :=
  match events with
  | [] => Some h
  | event :: events => h ← AddVEvent h cal event; AddVEvents h cal events
  end.

Section combine.

(** [sort.Slice] of the Go library, applied to a slice of event
    pointers and a comparison that can panic: the sorted slice, or
    [None] for a panic. It works on the slice it is given and on
    nothing else. Its code is not part of the repository: it is a
    parameter here, and [sorts] below is its documented contract. *)
Variable sort_Slice :
  list ptr → (ptr → ptr → option bool) → option (list ptr).

Definition combineCalendars (h : heap) (cal1 cal2 : ptr)
  : option (heap * ptr) :=
  let '(h, combinedCal) := NewCalendar h in
  events1 ← Events h cal1;
  events2 ← Events h cal2;
  let events := events1 ++ events2 in
  events ← sort_Slice events (less h);
  h ← AddVEvents h combinedCal events;
  Some (h, combinedCal).

End combine.

(** The contract of [sort.Slice]. For a comparison that does not panic
    on the elements of the slice and is a transitive ordering there (the
    requirements the library states for [Less], and irreflexivity), the
    call returns a permutation of the slice on which [sort.SliceIsSorted]
    holds: no element is less than the one before it. The library
    documents that the sort is not guaranteed to be stable, and the
    contract says nothing on the order of equal elements. *)
Definition sorts
    (sort_Slice : list ptr → (ptr → ptr → option bool) → option (list ptr))
  : Prop :=
  ∀ (l : list ptr) (lt : ptr → ptr → option bool),
    (∀ x y, x ∈ l → y ∈ l → is_Some (lt x y)) →
    (∀ x, x ∈ l → lt x x = Some false) →
    (∀ x y z, x ∈ l → y ∈ l → z ∈ l →
       lt x y = Some true → lt y z = Some true → lt x z = Some true) →
    (∀ x y z, x ∈ l → y ∈ l → z ∈ l →
       lt x y = Some false → lt y z = Some false → lt x z = Some false) →
    ∃ l', sort_Slice l lt = Some l' ∧ l' ≡ₚ l ∧
          Sorted (λ x y, lt y x = Some false) l'.

(** Insertion sort as the Go library runs it on short slices
    ([insertionSort_func]): each element in turn moves left past the
    elements it is less than. The sorted prefix is kept in reverse. *)
Fixpoint insert_left (lt : ptr → ptr → option bool) (x : ptr)
    (prefix : list ptr) : option (list ptr) :=
  match prefix with
  | [] => Some [x]
  | y :: prefix' =>
      b ← lt x y;
      if b : bool then (y ::.) <$> insert_left lt x prefix'
      else Some (x :: prefix)
  end.

Fixpoint insertion_loop (lt : ptr → ptr → option bool)
    (l prefix : list ptr) : option (list ptr) :=
  match l with
  | [] => Some (reverse prefix)
  | x :: l => prefix ← insert_left lt x prefix; insertion_loop lt l prefix
  end.

Definition insertionSort (l : list ptr) (lt : ptr → ptr → option bool)
  : option (list ptr) :=
  insertion_loop lt l [].

(** A sort that meets the contract and is not stable: it reverses the
    slice before sorting it. *)
Definition reversingSort (l : list ptr) (lt : ptr → ptr → option bool)
  : option (list ptr) :=
  insertionSort (reverse l) lt.

(** *** Vocabulary of the specification *)

(** Both events have a start time, and the first one's is not greater,
    as strings. *)
Definition startTime_le (h : heap) (e1 e2 : ptr) : Prop :=
  ∃ s1 s2, startTime h e1 = Some s1 ∧ startTime h e2 = Some s2 ∧
           (s1 ≤ s2)%string.

(** [out] keeps the events of [inp] that share a start time in the
    order they have in [inp]. *)
Definition stable (h : heap) (inp out : list ptr) : Prop :=
  ∀ s : string,
    filter (λ e, startTime h e = Some s) out =
    filter (λ e, startTime h e = Some s) inp.

(** The precondition: both pointers are calendars and every event of
    theirs is an event with a DTSTART property. *)
Definition events_have_DtStart (h : heap) (cal : ptr) : Prop :=
  ∃ events, Events h cal = Some events ∧
            Forall (λ e, is_Some (startTime h e)) events.

(** The two calendars of main_test.go, parsed: [mockColombianCalendar]
    at pointer 1 with events 1 and 2, [mockCanadianCalendar] at pointer
    2 with events 3 and 4. *)
Definition mockEvent (summary date : string) : VEvent :=
  mkVEvent [mkProperty "SUMMARY" [] summary;
            mkProperty "DTSTART" [("VALUE", ["DATE"])] date].

Definition mockHeap : heap :=
  mkHeap
    (<[1%positive := mockEvent "Colombian New Year" "20230101"]>
     (<[2%positive := mockEvent "Colombian Independence Day" "20230720"]>
     (<[3%positive := mockEvent "Canadian New Year" "20230101"]>
     (<[4%positive := mockEvent "Canada Day" "20230701"]> ∅))))
    (<[1%positive := mkCalendar [CompVEvent 1; CompVEvent 2]
                       [mkProperty "VERSION" [] "2.0"]]>
     (<[2%positive := mkCalendar [CompVEvent 3; CompVEvent 4]
                        [mkProperty "VERSION" [] "2.0"]]> ∅)).

(** [mockHeap] with the start time of event 2 removed. *)
Definition mockHeapNoStart : heap :=
  mkHeap
    (<[2%positive := mkVEvent [mkProperty "SUMMARY" [] "Colombian Independence Day"]]>
       (vevents mockHeap))
    (calendars mockHeap).

End Combiner.

(** ** main.go: aggregateICS

    The goroutines of one request, as a transition system: a state holds
    where each goroutine is, the counter of the [sync.WaitGroup], the
    channel and the response written so far; a step moves one goroutine.
    [eventChan] is unbuffered, so a send and the receive that takes it
    are one step. [c.Stream(step)] calls [step] until it returns false;
    the client stays connected while the response is written. *)

Module Aggregator.
Import Fetcher.

Definition ColombianHolidaysURL : string :=
  "https://www.officeholidays.com/ics/ics_country.php?tbl_country=Colombia".
Definition CanadianHolidaysURL : string :=
  "https://www.officeholidays.com/ics/ics_country.php?tbl_country=Canada".

(** [icsURLs := []string{ColombianHolidaysURL, CanadianHolidaysURL}] *)
Definition icsURLs : list string := [ColombianHolidaysURL; CanadianHolidaysURL].

(** The global [config]: the header and the footer of the response. *)
Record Config := mkConfig { Header : string; Footer : string }.

(** The goroutines of one request: the handler itself, the fetcher
    started for the i-th URL, and the goroutine that closes the
    channel. *)
Inductive goroutine :=
| Handler
| Fetch (i : nat)
| Closer.

(** Where the handler is: in the loop over the URLs still to launch,
    before [writeICSHeader], in [c.Stream], before [writeICSFooter], or
    returned. *)
Inductive handler_pc :=
| Launching (urls : list string)
| WritingHeader
| Streaming
| WritingFooter
| Returned.

Global Instance handler_pc_eq_dec : EqDecision handler_pc.
Proof. solve_decision. Defined.

(** Where a fetcher is: inside [FetchICS] with these values still to
    send on [eventChan], or finished, [wg.Done()] included. *)
Inductive fetch_pc :=
| Sending (pending : list string)
| FetchDone.

(** Where the closing goroutine is: not started, in [wg.Wait()], before
    [close(eventChan)], or finished. *)
Inductive closer_pc :=
| NotStarted
| Waiting
| Closing
| CloserDone.

Record state := mkState {
  handler : handler_pc;
  fetchers : list fetch_pc;
  closer : closer_pc;
  wg : nat;                 (* the counter of the WaitGroup *)
  closes : nat;             (* how many times eventChan was closed *)
  panicked : bool;          (* a send on the closed channel, a second
                               close, or a negative WaitGroup counter *)
  received : list string;   (* the values received from eventChan *)
  written : list string     (* the calls of c.Writer.Write *)
}.

Definition init (urls : list string) : state :=
  mkState (Launching urls) [] NotStarted 0 0 false [] [].

Definition panic (s : state) : state :=
  mkState (handler s) (fetchers s) (closer s) (wg s) (closes s) true
    (received s) (written s).

Section steps.

(** The outcome of [http.Get] for each URL, and the configuration. *)
Variable net : string → Response.
Variable config : Config.

(** What [FetchICS(url, eventChan)] sends. [FetchICS] always returns
    ([FetcherFacts.FetchICS_total]); the default is never used. *)
Definition sends (url : string) : list string :=
  default [] (FetchICS url (net url)).

(** One step of the handler. [None]: it cannot move. *)
Definition step_handler (s : state) : option state :=
  match handler s with
  | Launching (url :: urls) =>
      (* wg.Add(1); go func(url string) { defer wg.Done(); FetchICS(..) }(url) *)
      Some (mkState (Launching urls) (fetchers s ++ [Sending (sends url)])
              (closer s) (S (wg s)) (closes s) (panicked s)
              (received s) (written s))
  | Launching [] =>
      (* go func() { wg.Wait(); close(eventChan) }() *)
      Some (mkState WritingHeader (fetchers s) Waiting (wg s) (closes s)
              (panicked s) (received s) (written s))
  | WritingHeader =>
      (* writeICSHeader(c) *)
      Some (mkState Streaming (fetchers s) (closer s) (wg s) (closes s)
              (panicked s) (received s) (written s ++ [Header config]))
  | Streaming =>
      (* event, ok := <-eventChan with the channel closed: ok is
         false and c.Stream returns. With the channel open the
         receive waits for a sender: see [step_fetch]. *)
      if decide (closes s = 0) then None
      else Some (mkState WritingFooter (fetchers s) (closer s) (wg s)
                   (closes s) (panicked s) (received s) (written s))
  | WritingFooter =>
      (* writeICSFooter(c) *)
      Some (mkState Returned (fetchers s) (closer s) (wg s) (closes s)
              (panicked s) (received s) (written s ++ [Footer config]))
  | Returned => None
  end.

(** One step of the i-th fetcher. A send on the unbuffered channel
    happens together with the receive of the handler, in [c.Stream],
    which writes the value to the response. *)
Definition step_fetch (i : nat) (s : state) : option state :=
  match fetchers s !! i with
  | Some (Sending (event :: pending)) =>
      (* eventChan <- event *)
      if decide (closes s = 0) then
        match handler s with
        | Streaming =>
            Some (mkState Streaming (<[i := Sending pending]> (fetchers s))
                    (closer s) (wg s) (closes s) (panicked s)
                    (received s ++ [event]) (written s ++ [event]))
        | _ => None
        end
      else Some (panic s)
  | Some (Sending []) =>
      (* return from FetchICS; the deferred wg.Done() *)
      match wg s with
      | 0 => Some (panic s)
      | S n =>
          Some (mkState (handler s) (<[i := FetchDone]> (fetchers s))
                  (closer s) n (closes s) (panicked s)
                  (received s) (written s))
      end
  | Some FetchDone | None => None
  end.

(** One step of the closing goroutine. *)
Definition step_closer (s : state) : option state :=
  match closer s with
  | Waiting =>
      (* wg.Wait() returns when the counter is zero *)
      if decide (wg s = 0) then
        Some (mkState (handler s) (fetchers s) Closing (wg s) (closes s)
                (panicked s) (received s) (written s))
      else None
  | Closing =>
      (* close(eventChan) *)
      if decide (closes s = 0) then
        Some (mkState (handler s) (fetchers s) CloserDone (wg s)
                (S (closes s)) (panicked s) (received s) (written s))
      else Some (panic s)
  | NotStarted | CloserDone => None
  end.

(** One step of the program: the goroutine [g] moves. After a panic
    nothing moves. *)
Definition step (g : goroutine) (s : state) : option state :=
  if panicked s then None
  else match g with
       | Handler => step_handler s
       | Fetch i => step_fetch i s
       | Closer => step_closer s
       end.

(** A run under a schedule: the goroutines move in that order. *)
Fixpoint run (schedule : list goroutine) (s : state) : option state :=
  match schedule with
  | [] => Some s
  | g :: schedule => s ← step g s; run schedule s
  end.

(** [aggregateICS(c)] under a schedule. *)
Definition aggregateICS (schedule : list goroutine) : option state :=
  run schedule (init icsURLs).

(** *** Vocabulary of the specification *)

(** A bound on the number of steps left. *)
Definition steps_of_handler (pc : handler_pc) : nat :=
  match pc with
  | Launching urls => 4 + sum_list ((λ url, 2 + length (sends url)) <$> urls)
  | WritingHeader => 3
  | Streaming => 2
  | WritingFooter => 1
  | Returned => 0
  end.

Definition steps_of_fetcher (pc : fetch_pc) : nat :=
  match pc with
  | Sending pending => 1 + length pending
  | FetchDone => 0
  end.

Definition steps_of_closer (pc : closer_pc) : nat :=
  match pc with
  | NotStarted | Waiting => 2
  | Closing => 1
  | CloserDone => 0
  end.

Definition steps_left (s : state) : nat :=
  steps_of_handler (handler s) +
  sum_list (steps_of_fetcher <$> fetchers s) +
  steps_of_closer (closer s) +
  (if panicked s then 0 else 1).

(** The fetchers that have not called [wg.Done()]. *)
Definition running (pc : fetch_pc) : nat :=
  match pc with Sending _ => 1 | FetchDone => 0 end.

Definition to_send (pc : fetch_pc) : list string :=
  match pc with Sending pending => pending | FetchDone => [] end.

Definition to_launch (pc : handler_pc) : list string :=
  match pc with Launching urls => urls | _ => [] end.

(** What holds of every state a run from [init urls] reaches. *)
Record invariant (urls : list string) (s : state) : Prop := mkInvariant {
  inv_panicked : panicked s = false;
  inv_wg : wg s = sum_list (running <$> fetchers s);
  inv_launched :
    length (fetchers s) + length (to_launch (handler s)) = length urls;
  inv_values :
    received s ++ concat (to_send <$> fetchers s) ++
      concat (sends <$> to_launch (handler s))
    ≡ₚ concat (sends <$> urls);
  inv_closer :
    match closer s with
    | NotStarted => closes s = 0 ∧ ∃ us, handler s = Launching us
    | Waiting => closes s = 0 ∧ to_launch (handler s) = []
    | Closing => closes s = 0 ∧ wg s = 0 ∧ to_launch (handler s) = []
    | CloserDone => closes s = 1 ∧ wg s = 0 ∧ to_launch (handler s) = []
    end;
  inv_handler :
    match handler s with
    | Launching _ => closer s = NotStarted ∧ written s = [] ∧ received s = []
    | WritingHeader => written s = [] ∧ received s = []
    | Streaming => written s = Header config :: received s
    | WritingFooter =>
        written s = Header config :: received s ∧ closes s = 1
    | Returned =>
        written s = Header config :: received s ++ [Footer config] ∧
        closes s = 1
    end
}.

End steps.

(** A request to run the model on: the Colombian feed answers with the
    calendar of main_test.go, whose last line has no line feed, and the
    request for the Canadian feed fails. *)
Definition mockColombianBody : string :=
  render nl ["BEGIN:VCALENDAR"; "VERSION:2.0";
             "BEGIN:VEVENT"; "SUMMARY:Colombian New Year";
             "DTSTART;VALUE=DATE:20230101"; "END:VEVENT";
             "BEGIN:VEVENT"; "SUMMARY:Colombian Independence Day";
             "DTSTART;VALUE=DATE:20230720"; "END:VEVENT"] +:+
  "END:VCALENDAR".

Definition mockNet (url : string) : Response :=
  if decide (url = ColombianHolidaysURL)
  then GetOk (mkReader mockColombianBody EOF)
  else GetFailed.

Definition mockConfig : Config :=
  mkConfig ("BEGIN:VCALENDAR" +:+ nl) ("END:VCALENDAR" +:+ nl).

Definition mockSchedule : list goroutine :=
  [Handler; Handler; Handler; Handler;
   Fetch 0; Fetch 1; Fetch 0; Fetch 1; Fetch 0;
   Closer; Closer; Handler; Handler].

Definition mockFinal : state :=
  Eval vm_compute in
    default (init []) (aggregateICS mockNet mockConfig mockSchedule).

End Aggregator.

(** ** A feed as the extractor sees it *)

Module Feed.
Import GoString Fetcher.

(** Bytes of the body between the values sent: [weave] of the pairs
    (gap, value) is gap, value, gap, value, ... in that order. *)
Fixpoint weave (pairs : list (string * string)) : string :=
  match pairs with
  | [] => EmptyString
  | (gap, value) :: pairs => gap +:+ value +:+ weave pairs
  end.

(** The value that ends what [FetchICS] sends when reading the body
    fails, and nothing when the body ends with io.EOF. *)
Definition read_sentinel (url : string) (err : error) : list string :=
  match err with
  | EOF => []
  | ErrRead => ["Error reading response body: " +:+ url]
  end.

(** One item of a well-formed feed, as lines: a line outside of events
    (of the calendar itself, or of another component), or an event: its
    begin-marker line, its lines, its end-marker line. *)
Inductive item :=
| Outside (line : string)
| Event (b : string) (mid : list string) (e : string).

Definition item_lines (i : item) : list string :=
  match i with
  | Outside line => [line]
  | Event b mid e => b :: mid ++ [e]
  end.

Definition item_units (i : item) : list string :=
  match i with
  | Outside _ => []
  | Event b mid e => [join (b :: mid ++ [e])]
  end.

Definition well_formed (i : item) : Prop :=
  match i with
  | Outside line => terminated line ∧ is_begin line = false
  | Event b mid e => is_begin b = true ∧ Forall ordinary mid ∧ is_end e = true
  end.

(** The body of a feed: its items' lines, one after the other. *)
Definition feed_body (items : list item) : string :=
  join (items ≫= item_lines).

(** The begin-marker lines and the end-marker lines among [ls]. *)
Definition begin_lines (ls : list string) : list string :=
  filter (λ l, is_begin l = true) ls.

Definition end_lines (ls : list string) : list string :=
  filter (λ l, is_end l = true) ls.

End Feed.

(** ** main.go: fetchCalendar, printCalendarSummary, printEventSummary *)

Module Summary.
Import GoString Fetcher Ical.

(** Why [fetchCalendar] failed: [http.Get] returned an error, or
    [io.ReadAll] did. *)
Inductive failure := GetError | ReadError.

(** [io.ReadAll(resp.Body)]: the bytes read until the body ends, and the
    error that ended it unless it is io.EOF. *)
Definition ReadAll (body : Reader) : string * option error :=
  (unread body, match ending body with EOF => None | ErrRead => Some ErrRead end).

(** [fetchCalendar(url)], given the outcome of [http.Get(url)]. *)
Definition fetchCalendar (get : Response) : string * option failure :=
  match get with
  | GetFailed => (EmptyString, Some GetError)
  | GetOk body =>
      let '(bytes, err) := ReadAll body in
      match err with
      | Some _ => (EmptyString, Some ReadError)
      | None => (bytes, None)
      end
  end.

(** [strings.Split(s, sep)] for a separator of one byte: the pieces of
    [s] between the separators; one piece more than there are
    separators. *)
Fixpoint Split (s : string) (sep : ascii) : list string :=
  match s with
  | EmptyString => [EmptyString]
  | String c s' =>
      if decide (c = sep) then EmptyString :: Split s' sep
      else match Split s' sep with
           | piece :: pieces => String c piece :: pieces
           | [] => [String c EmptyString]
           end
  end.

(** The outcome of [ics.ParseCalendar(strings.NewReader(calendarData))]:
    an error, with its message, or a calendar. The parser is not part of
    the repository. *)
Inductive parsed :=
| ParseError (message : string)
| Parsed (cal : ptr).

(** [printEventSummary(events, index, position)]: the lines printed.
    [None] is a panic: an index out of range, or a nil event. *)
Definition printEventSummary (h : heap) (events : list ptr) (index : nat)
    (position : string) : option (list string) :=
  event ← events !! index;
  summary ← GetProperty h event ComponentPropertySummary;
  match summary with
  | Some summary =>
      (* fmt.Printf("%s Event (Entry #%d): SUMMARY: %s\n", ...) *)
      Some [position +:+ " Event (Entry #" +:+ pretty (index + 1) +:+
            "): SUMMARY: " +:+ Value summary +:+ nl]
  | None => Some []
  end.

(** [printCalendarSummary(calendarData)], given the outcome of parsing
    [calendarData]: the lines printed, or [None] for a panic. *)
Definition printCalendarSummary (h : heap) (parse : parsed)
    (calendarData : string) : option (list string) :=
  match parse with
  | ParseError message =>
      (* fmt.Println("Error parsing calendar:", err); return *)
      Some ["Error parsing calendar: " +:+ message +:+ nl]
  | Parsed cal =>
      let totalLines := length (Split calendarData LF) in
      events ← Events h cal;
      let totalEvents := length events in
      let counts :=
        ["Total number of lines: " +:+ pretty totalLines +:+ nl;
         "Total number of events: " +:+ pretty totalEvents +:+ nl] in
      if decide (totalEvents = 0) then Some counts
      else
        first ← printEventSummary h events 0 "First";
        (* if totalEvents > 2 *)
        middle ← (if decide (2 < totalEvents)
                  then printEventSummary h events (totalEvents / 2) "Middle"
                  else Some []);
        (* if totalEvents >= 2 *)
        last ← (if decide (2 ≤ totalEvents)
                then printEventSummary h events (totalEvents - 1) "Last"
                else Some []);
        Some (counts ++ first ++ middle ++ last)
  end.

(** *** Vocabulary of the specification *)

(** A terminated line without its line feed. *)
Fixpoint chomp (l : string) : string :=
  match l with
  | EmptyString => EmptyString
  | String c EmptyString => if decide (c = LF) then EmptyString else l
  | String c l' => String c (chomp l')
  end.

(** The positions and indexes [printCalendarSummary] summarises for a
    calendar of [n] events. *)
Definition summarised (n : nat) : list (string * nat) :=
  (if decide (n = 0) then [] else [("First", 0)]) ++
  (if decide (2 < n) then [("Middle", n / 2)] else []) ++
  (if decide (2 ≤ n) then [("Last", n - 1)] else []).

(** The line printed for the event at [index], if it has a summary. *)
Definition summary_line (h : heap) (events : list ptr)
    (entry : string * nat) : list string :=
  match events !! entry.2 with
  | Some event =>
      match GetProperty h event ComponentPropertySummary with
      | Some (Some summary) =>
          [entry.1 +:+ " Event (Entry #" +:+ pretty (entry.2 + 1) +:+
           "): SUMMARY: " +:+ Value summary +:+ nl]
      | _ => []
      end
  | None => []
  end.

End Summary.

(** ** Calendars to combine *)

Module CombinerMore.
Import Ical Combiner.

(** The properties [ics.NewCalendar()] gives every new calendar. *)
Definition NewCalendarProperties : list IANAProperty :=
  [mkProperty "VERSION" [] "2.0";
   mkProperty "PRODID" [] "-//arran4//Golang ICS Library"].

(** No two of the events start at the same time, as strings. *)
Definition distinct_startTimes (h : heap) (events : list ptr) : Prop :=
  ∀ x y, x ∈ events → y ∈ events → startTime h x = startTime h y → x = y.

(** A heap with a calendar, at pointer 1, that has a time zone before
    its events, and a second calendar, at pointer 2; the four events
    start on four days. *)
Definition zonedHeap : heap :=
  mkHeap
    (<[1%positive := mockEvent "Colombian New Year" "20230101"]>
     (<[2%positive := mockEvent "Colombian Independence Day" "20230720"]>
     (<[3%positive := mockEvent "Canadian Boxing Day" "20221226"]>
     (<[4%positive := mockEvent "Canada Day" "20230701"]> ∅))))
    (<[1%positive := mkCalendar
                       [CompOther "VTIMEZONE"; CompVEvent 1; CompVEvent 2]
                       [mkProperty "VERSION" [] "2.0";
                        mkProperty "X-WR-CALNAME" [] "Colombia"]]>
     (<[2%positive := mkCalendar [CompVEvent 3; CompVEvent 4]
                        [mkProperty "VERSION" [] "2.0"]]> ∅)).

End CombinerMore.

(** ** The order of the merged stream *)

Module AggregatorMore.
Import Fetcher Aggregator.

(** [merged sources out]: [out] is an interleaving of the lists
    [sources]; it is built by taking, one value at a time, the next value
    of one of the lists. *)
Inductive merged : list (list string) → list string → Prop :=
| merged_nil n : merged (replicate n []) []
| merged_snoc sources i source value out :
    sources !! i = Some source →
    merged sources out →
    merged (<[i := source ++ [value]]> sources) (out ++ [value]).

Section provenance.

Variable net : string → Response.

(** What holds of every state a run from [init urls] reaches: the
    values received are an interleaving of what the fetchers have sent,
    and each fetcher has sent the beginning of what [FetchICS] sends for
    its URL and has the rest still to send. *)
Definition provenance (urls : list string) (s : state) : Prop :=
  ∃ sent : list (list string),
    merged sent (received s) ∧
    length sent = length (fetchers s) ∧
    (∀ i values pc url,
       sent !! i = Some values → fetchers s !! i = Some pc →
       urls !! i = Some url → values ++ to_send pc = sends net url) ∧
    (∀ us, handler s = Launching us → drop (length (fetchers s)) urls = us).

End provenance.

End AggregatorMore.

(** ** The Go library: sort.Slice

    [combineCalendars] orders the events with [sort.Slice], whose code
    is in the Go library (sort/slice.go and sort/zsortfunc.go), not in
    the repository. This is that code as of Go 1.19 and later, the
    pattern-defeating quicksort, function by function: the slice is a
    list of event pointers, [data.Less(i, j)] and [data.Swap(i, j)] work
    on it by index, and [None] is a panic of the comparison. A loop is
    a recursion on its index where the index decreases and on a count
    of iterations otherwise, one more than the length of the slice or
    of the range: a range shrinks with every iteration, and a count
    used up is [None] as well. [breakPatterns_func], which moves three
    elements to places drawn from a pseudo-random generator, is a
    parameter. *)

Module GoSort.
Import Ical.

Inductive sortedHint := unknownHint | increasingHint | decreasingHint.

Section lessSwap.

(** [breakPatterns_func(data, a, b)]: it calls [data.Swap] only. *)
Variable breakPatterns_func : list ptr → nat → nat → list ptr.

(** [less], the function given to [sort.Slice], on the elements. *)
Variable less : ptr → ptr → option bool.

(** [data.Less(i, j)]: [less(i, j)] reads the slice at [i] and [j]. *)
Definition Less (data : list ptr) (i j : nat) : option bool :=
  x ← data !! i; y ← data !! j; less x y.

(** [data.Swap(i, j)] *)
Definition Swap (data : list ptr) (i j : nat) : option (list ptr) :=
  x ← data !! i; y ← data !! j; Some (<[j := x]> (<[i := y]> data)).

(** [for j := i; j > a && data.Less(j, j-1); j-- { data.Swap(j, j-1) }] *)
Fixpoint insertionSort_inner (data : list ptr) (a j : nat)
  : option (list ptr) :=
  match j with
  | 0 => Some data
  | S j' =>
      if decide (a < j) then
        lt ← Less data j j';
        if lt : bool then
          data ← Swap data j j'; insertionSort_inner data a j'
        else Some data
      else Some data
  end.

(** [for i := a + 1; i < b; i++ { ... }], with [n] iterations left. *)
Fixpoint insertionSort_outer (n : nat) (data : list ptr) (a i : nat)
  : option (list ptr) :=
  match n with
  | 0 => Some data
  | S n =>
      data ← insertionSort_inner data a i;
      insertionSort_outer n data a (S i)
  end.

Definition insertionSort_func (data : list ptr) (a b : nat)
  : option (list ptr) :=
  insertionSort_outer (b - (a + 1)) data a (a + 1).

(** [siftDown_func(data, lo, hi, first)], the loop from [root]. *)
Fixpoint siftDown_loop (n : nat) (data : list ptr) (root hi first : nat)
  : option (list ptr) :=
  match n with
  | 0 => None
  | S n =>
      let child := 2 * root + 1 in
      if decide (hi ≤ child) then Some data else
      lt ← (if decide (child + 1 < hi)
            then Less data (first + child) (first + child + 1)
            else Some false);
      let child := if lt : bool then child + 1 else child in
      lt ← Less data (first + root) (first + child);
      if lt : bool then
        data ← Swap data (first + root) (first + child);
        siftDown_loop n data child hi first
      else Some data
  end.

Definition siftDown_func (data : list ptr) (lo hi first : nat)
  : option (list ptr) :=
  siftDown_loop (S hi) data lo hi first.

(** [for i := (hi - 1) / 2; i >= 0; i-- { siftDown_func(data, i, hi, first) }],
    with [n] iterations left: [i] is [n - 1]. *)
Fixpoint heapSort_build (n : nat) (data : list ptr) (hi first : nat)
  : option (list ptr) :=
  match n with
  | 0 => Some data
  | S i =>
      data ← siftDown_func data i hi first;
      heapSort_build i data hi first
  end.

(** [for i := hi - 1; i >= 0; i-- { data.Swap(first, first+i);
    siftDown_func(data, lo, i, first) }], with [n] iterations left. *)
Fixpoint heapSort_pop (n : nat) (data : list ptr) (lo first : nat)
  : option (list ptr) :=
  match n with
  | 0 => Some data
  | S i =>
      data ← Swap data first (first + i);
      data ← siftDown_func data lo i first;
      heapSort_pop i data lo first
  end.

Definition heapSort_func (data : list ptr) (a b : nat) : option (list ptr) :=
  let first := a in
  let lo := 0 in
  let hi := b - a in
  data ← heapSort_build (S ((hi - 1) / 2)) data hi first;
  heapSort_pop hi data lo first.

(** [for i <= j && cond(i) { i++ }], with [n] iterations left. *)
Fixpoint forward (n : nat) (cond : nat → option bool) (i j : nat)
  : option nat :=
  match n with
  | 0 => None
  | S n =>
      if decide (i ≤ j) then
        c ← cond i;
        if c : bool then forward n cond (S i) j else Some i
      else Some i
  end.

(** [for i <= j && cond(j) { j-- }]; [i] is 1 at least. *)
Fixpoint backward (cond : nat → option bool) (i j : nat) : option nat :=
  match j with
  | 0 => Some j
  | S j' =>
      if decide (i ≤ j) then
        c ← cond j;
        if c : bool then backward cond i j' else Some j
      else Some j
  end.

(** The [for] loop of [partition_func], with [n] iterations left. *)
Fixpoint partition_loop (n : nat) (data : list ptr) (a i j : nat)
  : option (list ptr * nat) :=
  match n with
  | 0 => None
  | S n =>
      i ← forward (S (length data)) (λ i, Less data i a) i j;
      j ← backward (λ j, negb <$> Less data j a) i j;
      if decide (j < i) then Some (data, j) else
      data ← Swap data i j;
      partition_loop n data a (i + 1) (j - 1)
  end.

Definition partition_func (data : list ptr) (a b pivot : nat)
  : option (list ptr * nat * bool) :=
  data ← Swap data a pivot;
  let i := a + 1 in
  let j := b - 1 in
  i ← forward (S (length data)) (λ i, Less data i a) i j;
  j ← backward (λ j, negb <$> Less data j a) i j;
  if decide (j < i) then
    data ← Swap data j a; Some (data, j, true)
  else
    data ← Swap data i j;
    '(data, j) ← partition_loop (S (length data)) data a (i + 1) (j - 1);
    data ← Swap data j a;
    Some (data, j, false).

(** The [for] loop of [partitionEqual_func], with [n] iterations left. *)
Fixpoint partitionEqual_loop (n : nat) (data : list ptr) (a i j : nat)
  : option (list ptr * nat) :=
  match n with
  | 0 => None
  | S n =>
      i ← forward (S (length data)) (λ i, negb <$> Less data a i) i j;
      j ← backward (λ j, Less data a j) i j;
      if decide (j < i) then Some (data, i) else
      data ← Swap data i j;
      partitionEqual_loop n data a (i + 1) (j - 1)
  end.

Definition partitionEqual_func (data : list ptr) (a b pivot : nat)
  : option (list ptr * nat) :=
  data ← Swap data a pivot;
  partitionEqual_loop (S (length data)) data a (a + 1) (b - 1).

(** [for i < b && !data.Less(i, i-1) { i++ }], with [n] iterations left. *)
Fixpoint partialInsertionSort_scan (n : nat) (data : list ptr) (b i : nat)
  : option nat :=
  match n with
  | 0 => None
  | S n =>
      if decide (i < b) then
        lt ← Less data i (i - 1);
        if lt : bool then Some i
        else partialInsertionSort_scan n data b (S i)
      else Some i
  end.

(** [for j := i - 1; j >= 1; j-- { if !data.Less(j, j-1) { break };
    data.Swap(j, j-1) }] *)
Fixpoint shift_left (data : list ptr) (j : nat) : option (list ptr) :=
  match j with
  | 0 => Some data
  | S j' =>
      lt ← Less data j j';
      if lt : bool then data ← Swap data j j'; shift_left data j'
      else Some data
  end.

(** [for j := i + 1; j < b; j++ { if !data.Less(j, j-1) { break };
    data.Swap(j, j-1) }], with [n] iterations left. *)
Fixpoint shift_right (n : nat) (data : list ptr) (b j : nat)
  : option (list ptr) :=
  match n with
  | 0 => None
  | S n =>
      if decide (j < b) then
        lt ← Less data j (j - 1);
        if lt : bool then
          data ← Swap data j (j - 1); shift_right n data b (S j)
        else Some data
      else Some data
  end.

(** [for j := 0; j < maxSteps; j++ { ... }], with [steps] iterations
    left; [i] is declared before the loop. *)
Fixpoint partialInsertionSort_steps (steps : nat) (data : list ptr)
    (a b i : nat) : option (list ptr * bool) :=
  match steps with
  | 0 => Some (data, false)
  | S steps =>
      i ← partialInsertionSort_scan (S (length data)) data b i;
      if decide (i = b) then Some (data, true) else
      if decide (b - a < 50) then Some (data, false) else
      data ← Swap data i (i - 1);
      data ← (if decide (2 ≤ i - a) then shift_left data (i - 1)
              else Some data);
      data ← (if decide (2 ≤ b - i)
              then shift_right (S (length data)) data b (i + 1)
              else Some data);
      partialInsertionSort_steps steps data a b i
  end.

(** [maxSteps = 5], [shortestShifting = 50] *)
Definition partialInsertionSort_func (data : list ptr) (a b : nat)
  : option (list ptr * bool) :=
  partialInsertionSort_steps 5 data a b (a + 1).

(** [order2_func(data, a, b, &swaps)], the new count with the result. *)
Definition order2_func (data : list ptr) (a b swaps : nat)
  : option (nat * nat * nat) :=
  lt ← Less data b a;
  if lt : bool then Some (b, a, S swaps) else Some (a, b, swaps).

Definition median_func (data : list ptr) (a b c swaps : nat)
  : option (nat * nat) :=
  '(a, b, swaps) ← order2_func data a b swaps;
  '(b, c, swaps) ← order2_func data b c swaps;
  '(a, b, swaps) ← order2_func data a b swaps;
  Some (b, swaps).

Definition medianAdjacent_func (data : list ptr) (a swaps : nat)
  : option (nat * nat) :=
  median_func data (a - 1) a (a + 1) swaps.

(** [shortestNinther = 50], [maxSwaps = 4 * 3] *)
Definition choosePivot_func (data : list ptr) (a b : nat)
  : option (nat * sortedHint) :=
  let l := b - a in
  let i := a + l / 4 * 1 in
  let j := a + l / 4 * 2 in
  let k := a + l / 4 * 3 in
  '(j, swaps) ←
    (if decide (8 ≤ l) then
       '(i, j, k, swaps) ←
         (if decide (50 ≤ l) then
            '(i, swaps) ← medianAdjacent_func data i 0;
            '(j, swaps) ← medianAdjacent_func data j swaps;
            '(k, swaps) ← medianAdjacent_func data k swaps;
            Some (i, j, k, swaps)
          else Some (i, j, k, 0));
       median_func data i j k swaps
     else Some (j, 0));
  Some (j, match swaps with
           | 0 => increasingHint
           | 12 => decreasingHint
           | _ => unknownHint
           end).

(** [for i < j { data.Swap(i, j); i++; j-- }], with [n] iterations left. *)
Fixpoint reverseRange_loop (n : nat) (data : list ptr) (i j : nat)
  : option (list ptr) :=
  match n with
  | 0 => None
  | S n =>
      if decide (i < j) then
        data ← Swap data i j; reverseRange_loop n data (i + 1) (j - 1)
      else Some data
  end.

Definition reverseRange_func (data : list ptr) (a b : nat)
  : option (list ptr) :=
  reverseRange_loop (S (length data)) data a (b - 1).

(** [pdqsort_func(data, a, b, limit)]: the body of its [for] loop, from
    the values [wasBalanced] and [wasPartitioned] have; a call starts
    with both true. [n] bounds the iterations and the depth of the
    calls. [maxInsertion = 12]. *)
Fixpoint pdqsort_loop (n : nat) (data : list ptr) (a b limit : nat)
    (wasBalanced wasPartitioned : bool) : option (list ptr) :=
  match n with
  | 0 => None
  | S n =>
      let length := b - a in
      if decide (length ≤ 12) then insertionSort_func data a b else
      if decide (limit = 0) then heapSort_func data a b else
      let '(data, limit) :=
        if wasBalanced then (data, limit)
        else (breakPatterns_func data a b, limit - 1) in
      '(pivot, hint) ← choosePivot_func data a b;
      '(data, pivot, hint) ←
        (match hint with
         | decreasingHint =>
             data ← reverseRange_func data a b;
             Some (data, (b - 1) - (pivot - a), increasingHint)
         | _ => Some (data, pivot, hint)
         end);
      '(data, sorted) ←
        (match wasBalanced, wasPartitioned, hint with
         | true, true, increasingHint => partialInsertionSort_func data a b
         | _, _, _ => Some (data, false)
         end);
      if sorted : bool then Some data else
      equal ← (if decide (0 < a) then negb <$> Less data (a - 1) pivot
               else Some false);
      if equal : bool then
        '(data, mid) ← partitionEqual_func data a b pivot;
        pdqsort_loop n data mid b limit wasBalanced wasPartitioned
      else
        '(data, mid, alreadyPartitioned) ← partition_func data a b pivot;
        let leftLen := mid - a in
        let rightLen := b - mid in
        let balanceThreshold := length / 8 in
        if decide (leftLen < rightLen) then
          data ← pdqsort_loop n data a mid limit true true;
          pdqsort_loop n data (mid + 1) b limit
            (bool_decide (balanceThreshold ≤ leftLen)) alreadyPartitioned
        else
          data ← pdqsort_loop n data (mid + 1) b limit true true;
          pdqsort_loop n data a mid limit
            (bool_decide (balanceThreshold ≤ rightLen)) alreadyPartitioned
  end.

Definition pdqsort_func (data : list ptr) (a b limit : nat)
  : option (list ptr) :=
  pdqsort_loop (S (b - a)) data a b limit true true.

(** [bits.Len(uint(length))]: the number of bits of [length]. *)
Definition bits_Len (length : nat) : nat :=
  if decide (length = 0) then 0 else S (Nat.log2 length).

End lessSwap.

(** [sort.Slice(x, less)] *)
Definition Slice (breakPatterns_func : list ptr → nat → nat → list ptr)
    (x : list ptr) (less : ptr → ptr → option bool) : option (list ptr) :=
  let length := length x in
  let limit := bits_Len length in
  pdqsort_func breakPatterns_func less x 0 length limit.

End GoSort.

(** ** Thirteen events

    More events than [sort.Slice] sorts by insertion. *)

Module January.
Import Ical Combiner.

(** Two calendars for the days of one January: at pointer 1 a calendar
    with the events 1 to 7, at pointer 2 one with the events 8 to 13.
    The events 1 and 7 start on the same day. *)
Definition januaryEvents : list (ptr * VEvent) :=
  [(1, mockEvent "Epiphany" "20230106");
   (2, mockEvent "New Year" "20230101");
   (3, mockEvent "Second of January" "20230102");
   (4, mockEvent "Third of January" "20230103");
   (5, mockEvent "Fourth of January" "20230104");
   (6, mockEvent "Fifth of January" "20230105");
   (7, mockEvent "Three Kings" "20230106");
   (8, mockEvent "Seventh of January" "20230107");
   (9, mockEvent "Eighth of January" "20230108");
   (10, mockEvent "Ninth of January" "20230109");
   (11, mockEvent "Tenth of January" "20230110");
   (12, mockEvent "Eleventh of January" "20230111");
   (13, mockEvent "Twelfth of January" "20230112")]%positive.

Definition januaryHeap : heap :=
  mkHeap
    (list_to_map januaryEvents)
    (<[1%positive := mkCalendar
                       (CompVEvent <$> [1; 2; 3; 4; 5; 6; 7]%positive)
                       [mkProperty "VERSION" [] "2.0"]]>
     (<[2%positive := mkCalendar
                        (CompVEvent <$> [8; 9; 10; 11; 12; 13]%positive)
                        [mkProperty "VERSION" [] "2.0"]]> ∅)).

End January.

(** * Properties *)

Module GoStringFacts.
Import GoString.

Lemma app_cons (c : ascii) (s1 s2 : string) :
  String c s1 +:+ s2 = String c (s1 +:+ s2).
Proof. done. Qed.

Lemma app_nil_l (s : string) : "" +:+ s = s.
Proof. done. Qed.

Lemma app_nil_r (s : string) : s +:+ "" = s.
Proof. induction s as [|c s IH]; [done|]. by rewrite app_cons, IH. Qed.

Lemma app_assoc (s1 s2 s3 : string) :
  (s1 +:+ s2) +:+ s3 = s1 +:+ (s2 +:+ s3).
Proof.
  induction s1 as [|c s1 IH]; [done|]. by rewrite !app_cons, IH.
Qed.

Lemma app_length (s1 s2 : string) :
  String.length (s1 +:+ s2) = String.length s1 + String.length s2.
Proof.
  induction s1 as [|c s1 IH]; [done|]. rewrite app_cons. simpl. by rewrite IH.
Qed.

Lemma app_eq_nil (s1 s2 : string) : s1 +:+ s2 = "" → s1 = "" ∧ s2 = "".
Proof. by destruct s1. Qed.

Lemma join_app (ls1 ls2 : list string) :
  join (ls1 ++ ls2) = join ls1 +:+ join ls2.
Proof.
  induction ls1 as [|l ls1 IH]; [done|].
  simpl. by rewrite IH, app_assoc.
Qed.

Lemma occurs_app (c : ascii) (s1 s2 : string) :
  occurs c (s1 +:+ s2) = occurs c s1 || occurs c s2.
Proof.
  induction s1 as [|d s1 IH]; [done|].
  rewrite app_cons. simpl. by rewrite IH, orb_assoc.
Qed.

Lemma app_char_inj (c : ascii) (s1 s2 : string) :
  s1 +:+ String c "" = s2 +:+ String c "" → s1 = s2.
Proof.
  revert s2. induction s1 as [|d s1 IH]; intros [|d' s2]; rewrite ?app_cons;
    rewrite ?app_nil_l; [done| | |].
  - intros [= _ [_ [=]]%eq_sym%app_eq_nil].
  - intros [= _ [_ [=]]%app_eq_nil].
  - intros [= -> ?]. f_equal. by apply IH.
Qed.

End GoStringFacts.

(** ** The event extractor *)

Module FetcherFacts.
Import GoString GoStringFacts Fetcher.

(** *** [ReadString] against [lines] *)

Lemma cut_Some (s line rest : string) :
  cut LF s = Some (line, rest) →
  s = line +:+ rest ∧ terminated line ∧
  String.length rest < String.length s ∧
  lines s = (line :: (lines rest).1, (lines rest).2).
Proof.
  revert line rest. induction s as [|c s IH]; intros line rest; [done|].
  simpl. destruct (decide (c = LF)) as [->|Hc].
  - intros [= <- <-]. split_and!; [done| |lia|].
    + by exists "".
    + by destruct (lines s).
  - destruct (cut LF s) as [[line' rest']|] eqn:Hcut; [|done].
    intros [= <- <-].
    destruct (IH _ _ eq_refl) as (Hs & (t & Ht & Hocc) & Hlen & Hlines).
    split_and!.
    + by rewrite app_cons, <-Hs.
    + exists (String c t). rewrite app_cons, <-Ht. split; [done|].
      simpl. by rewrite Hocc, bool_decide_eq_false_2.
    + lia.
    + by rewrite Hlines.
Qed.

Lemma cut_None (s : string) :
  cut LF s = None → lines s = ([], s) ∧ occurs LF s = false.
Proof.
  induction s as [|c s IH]; [done|].
  simpl. destruct (decide (c = LF)) as [->|Hc]; [done|].
  destruct (cut LF s) as [[line' rest']|] eqn:Hcut; [done|].
  intros _. destruct (IH eq_refl) as [-> ->].
  by rewrite bool_decide_eq_false_2.
Qed.

Lemma cut_None_lines (s : string) :
  occurs LF s = false → lines s = ([], s).
Proof.
  induction s as [|c s IH]; [done|].
  simpl. intros [Hc Hs]%orb_false_iff. apply bool_decide_eq_false in Hc.
  rewrite (IH Hs). by rewrite decide_False.
Qed.

Lemma lines_terminated (s : string) : Forall terminated (lines s).1.
Proof.
  induction s as [|c s IH]; [by constructor|].
  simpl. destruct (lines s) as [ls rest]; simpl in *.
  destruct (decide (c = LF)) as [->|Hc]; simpl.
  - constructor; [by exists ""|done].
  - destruct ls as [|l ls]; [by constructor|]. simpl.
    inversion_clear IH as [|?? (t & -> & Hocc) Hls].
    constructor; [|done].
    exists (String c t). split; [done|].
    simpl. by rewrite Hocc, bool_decide_eq_false_2.
Qed.

Lemma lines_no_LF (s : string) : occurs LF (lines s).2 = false.
Proof.
  induction s as [|c s IH]; [done|].
  simpl. destruct (lines s) as [ls rest]; simpl in *.
  destruct (decide (c = LF)) as [->|Hc]; [done|].
  destruct ls as [|l ls]; simpl; [|done].
  by rewrite IH, bool_decide_eq_false_2.
Qed.

(** *** The loop is the loop body iterated over the terminated lines *)

Lemma loop_scan (url : string) (fuel : nat) (reader : Reader) (st : locals) :
  String.length (unread reader) < fuel →
  loop fuel url reader st =
    Some (let '(st', sent) := scan (lines (unread reader)).1 st in
          sent ++ at_end url (ending reader) st').
Proof.
  revert reader st. induction fuel as [|fuel IH]; intros [s e] st Hlen; [lia|].
  simpl in *. unfold ReadString. simpl.
  destruct (cut LF s) as [[line rest]|] eqn:Hcut.
  - apply cut_Some in Hcut as (_ & _ & Hrest & ->). simpl.
    destruct (on_line line st) as [st1 sent1].
    rewrite IH by (simpl; lia). simpl.
    destruct (scan (lines rest).1 st1) as [st2 sent2].
    by rewrite <-(assoc_L (++)).
  - apply cut_None in Hcut as [-> _]. simpl.
    by destruct e.
Qed.

Lemma FetchICS_scan (url : string) (reader : Reader) :
  FetchICS url (GetOk reader) =
    Some (let '(st', sent) := scan (lines (unread reader)).1 Idle in
          sent ++ at_end url (ending reader) st').
Proof. apply loop_scan. lia. Qed.

(** The function returns, for every outcome of the request. *)
Lemma FetchICS_total (url : string) (get : Response) :
  is_Some (FetchICS url get).
Proof.
  destruct get as [|reader]; [by eexists|].
  rewrite FetchICS_scan. by eexists.
Qed.

(** *** Units are delimited by the markers *)

Lemma is_begin_not_end (l : string) : is_begin l = true → is_end l = false.
Proof.
  unfold is_begin, is_end.
  intros [->%bool_decide_eq_true| ->%bool_decide_eq_true]%orb_true_iff; done.
Qed.

Lemma partial_unit_nonempty (u : string) : partial_unit u → u ≠ "".
Proof.
  intros (b & mid & Hb & _ & ->) [-> _]%app_eq_nil. done.
Qed.

Lemma on_line_between (line : string) (st : locals) :
  terminated line → between_lines st →
  between_lines (on_line line st).1 ∧ Forall complete_unit (on_line line st).2.
Proof.
  intros Hline Hst. unfold on_line.
  destruct (is_begin line) eqn:Hb; simpl.
  { split; [|by constructor]. unfold between_lines; simpl.
    exists line, []. by rewrite app_nil_r. }
  unfold between_lines in Hst.
  destruct (inEvent st) eqn:Hin; simpl;
    [|by unfold between_lines; rewrite Hin].
  destruct Hst as (b & mid & Hbeg & Hmid & Hev).
  destruct (is_end line) eqn:He; simpl.
  - split; [done|]. constructor; [|by constructor].
    exists b, mid, line. by rewrite Hev, app_assoc.
  - split; [|by constructor]. unfold between_lines; simpl.
    exists b, (mid ++ [line]). split_and!; [done| |].
    + apply Forall_app. split; [done|]. by repeat constructor.
    + rewrite Hev, join_app. simpl. by rewrite app_nil_r, app_assoc.
Qed.

Lemma scan_between (ls : list string) (st : locals) :
  Forall terminated ls → between_lines st →
  between_lines (scan ls st).1 ∧ Forall complete_unit (scan ls st).2.
Proof.
  intros Hls. revert st. induction Hls as [|l ls Hl Hls IH]; intros st Hst.
  { by split; [|constructor]. }
  simpl. destruct (on_line_between l st Hl Hst) as [Hst1 Hsent1].
  destruct (on_line l st) as [st1 sent1]; simpl in *.
  destruct (IH st1 Hst1) as [Hst2 Hsent2].
  destruct (scan ls st1) as [st2 sent2]; simpl in *.
  split; [done|]. by apply Forall_app.
Qed.

Lemma scan_lines_between (s : string) :
  between_lines (scan (lines s).1 Idle).1 ∧
  Forall complete_unit (scan (lines s).1 Idle).2.
Proof. apply scan_between; [apply lines_terminated|done]. Qed.

(** C1. Every value [FetchICS] sends is a complete unit, a begin-marker
    line followed by lines that are neither marker and by an end-marker
    line, except the last value sent, which is: the sentinel of a failed
    request; the sentinel of a failed read; or, when the body ends
    (io.EOF) while an event is being accumulated, the one partial unit,
    which starts with a begin-marker line and has no end-marker line. *)
Theorem C1_units_are_delimited (url : string) (get : Response) :
  ∃ units last,
    FetchICS url get = Some (units ++ last) ∧
    Forall complete_unit units ∧
    match get with
    | GetFailed => units = [] ∧ last = ["Error fetching URL: " +:+ url]
    | GetOk reader =>
        match ending reader with
        | ErrRead => last = ["Error reading response body: " +:+ url]
        | EOF =>
            if inEvent (scan (lines (unread reader)).1 Idle).1
            then ∃ p, last = [p] ∧ partial_unit p
            else last = []
        end
    end.
Proof.
  destruct get as [|[s e]].
  { exists [], ["Error fetching URL: " +:+ url]. by split_and!. }
  rewrite FetchICS_scan. simpl.
  destruct (scan_lines_between s) as [Hst Hsent].
  destruct (scan (lines s).1 Idle) as [st sent]; simpl in *.
  exists sent, (at_end url e st). split_and!; [done..|].
  destruct e; simpl; [|done].
  unfold between_lines in Hst. destruct (inEvent st).
  - rewrite decide_False by by apply partial_unit_nonempty. by exists (event st).
  - by rewrite decide_True.
Qed.

(** *** The transitions of the extractor *)

(** C4, as the specification states it, does not hold: inside an event,
    a begin-marker line is not appended to the buffer. The buffer
    accumulated so far is replaced by that line. *)
Lemma C4_begin_marker_restarts_buffer :
  let st := mkLocals (BEGIN_LF +:+ "SUMMARY:x" +:+ nl) true in
  inEvent st = true ∧
  on_line BEGIN_LF st = (mkLocals BEGIN_LF true, []) ∧
  event (on_line BEGIN_LF st).1 ≠ event st +:+ BEGIN_LF.
Proof. by split_and!. Qed.

(** C4, amended. Inside an event: a begin-marker line restarts the
    buffer with that line alone and the extractor stays inside the
    event; a line that is neither marker is appended to the buffer; an
    end-marker line is appended, the buffer is sent as one unit and
    cleared, and the extractor returns to Idle. Nothing is sent on any
    line but an end-marker line. *)
Theorem C4_transitions_inside_event (line : string) (st : locals) :
  inEvent st = true →
  (is_begin line = true → on_line line st = (mkLocals line true, [])) ∧
  (is_begin line = false → is_end line = false →
     on_line line st = (mkLocals (event st +:+ line) true, [])) ∧
  (is_end line = true → on_line line st = (Idle, [event st +:+ line])) ∧
  ((on_line line st).2 ≠ [] ↔ is_end line = true).
Proof.
  intros Hin. unfold on_line. rewrite Hin.
  destruct (is_begin line) eqn:Hb.
  - rewrite (is_begin_not_end _ Hb). by split_and!; [..|split].
  - destruct (is_end line); by split_and!; [..|split].
Qed.

Lemma C4_transitions_inside_event_witness :
  on_line END_CRLF (mkLocals BEGIN_CRLF true) =
    (Idle, [BEGIN_CRLF +:+ END_CRLF]).
Proof.
  by apply (C4_transitions_inside_event END_CRLF (mkLocals BEGIN_CRLF true)).
Defined.

(** *** The end of the stream *)

(** C5. When the body ends (io.EOF) while the extractor is inside an
    event, the buffer is sent as the last value, after the units
    completed before; a body that is just one begin-marker line makes
    the function send exactly that line. *)
Theorem C5_partial_unit_is_flushed (url data : string) :
  inEvent (scan (lines data).1 Idle).1 = true →
  FetchICS url (GetOk (mkReader data EOF)) =
    Some ((scan (lines data).1 Idle).2 ++ [event (scan (lines data).1 Idle).1]) ∧
  partial_unit (event (scan (lines data).1 Idle).1) ∧
  (is_begin data = true →
     FetchICS url (GetOk (mkReader data EOF)) = Some [data]).
Proof.
  intros Hin. rewrite FetchICS_scan. simpl.
  destruct (scan_lines_between data) as [Hst _].
  unfold between_lines in Hst. rewrite Hin in Hst.
  split_and!; [|done|].
  - destruct (scan (lines data).1 Idle) as [st sent]; simpl in *.
    by rewrite decide_False by by apply partial_unit_nonempty.
  - unfold is_begin.
    by intros [->%bool_decide_eq_true| ->%bool_decide_eq_true]%orb_true_iff.
Qed.

Lemma C5_partial_unit_is_flushed_witness :
  FetchICS "http://example.org/a.ics" (GetOk (mkReader BEGIN_CRLF EOF)) =
    Some [BEGIN_CRLF].
Proof.
  by apply (C5_partial_unit_is_flushed "http://example.org/a.ics" BEGIN_CRLF).
Defined.

(** *** Failures *)

Lemma complete_unit_not_sentinel (u tail : string) :
  complete_unit u → u ≠ "Error " +:+ tail.
Proof.
  unfold is_begin.
  intros (b & mid & e &
          [->%bool_decide_eq_true| ->%bool_decide_eq_true]%orb_true_iff &
          _ & _ & ->); done.
Qed.

(** C7. When the request fails, the only value sent is "Error fetching
    URL: " followed by the URL. When reading the body fails, the last
    value sent is "Error reading response body: " followed by the URL;
    the values sent before it are the units completed before the
    failure, none of which is a sentinel, and the buffer of an event
    under accumulation is not sent. *)
Theorem C7_sentinels (url : string) :
  FetchICS url GetFailed = Some ["Error fetching URL: " +:+ url] ∧
  ∀ data : string,
    FetchICS url (GetOk (mkReader data ErrRead)) =
      Some ((scan (lines data).1 Idle).2 ++
            ["Error reading response body: " +:+ url]) ∧
    Forall complete_unit (scan (lines data).1 Idle).2 ∧
    "Error reading response body: " +:+ url ∉ (scan (lines data).1 Idle).2.
Proof.
  split; [done|]. intros data. rewrite FetchICS_scan. simpl.
  destruct (scan_lines_between data) as [_ Hsent].
  destruct (scan (lines data).1 Idle) as [st sent]; simpl in *.
  split_and!; [done..|].
  intros Hin. eapply Forall_forall in Hsent; [|done].
  by eapply (complete_unit_not_sentinel _ ("reading response body: " +:+ url)).
Qed.

(** *** The unterminated last line *)

Lemma lines_app_tail (data tail : string) :
  occurs LF tail = false →
  lines (data +:+ tail) = ((lines data).1, (lines data).2 +:+ tail).
Proof.
  intros Htail. induction data as [|c data IH].
  - rewrite app_nil_l. simpl. by apply cut_None_lines.
  - rewrite app_cons. simpl. rewrite IH.
    destruct (lines data) as [ls rest]; simpl.
    destruct (decide (c = LF)); [done|]. by destruct ls.
Qed.

(** C9. The bytes that follow the last line feed of the body, the final
    unterminated line, are in no value sent: the function sends what it
    sends for the body without them, however the body ends. *)
Theorem C9_unterminated_line_is_dropped
    (url data tail : string) (e : error) :
  (lines data).2 = "" → occurs LF tail = false →
  (lines (data +:+ tail)).2 = tail ∧
  FetchICS url (GetOk (mkReader (data +:+ tail) e)) =
    FetchICS url (GetOk (mkReader data e)).
Proof.
  intros Hdata Htail. rewrite !FetchICS_scan. simpl.
  rewrite lines_app_tail by done. simpl. by rewrite Hdata.
Qed.

Lemma C9_unterminated_line_is_dropped_witness :
  (lines (BEGIN_LF +:+ "END:VEVENT")).2 = "END:VEVENT" ∧
  FetchICS "u" (GetOk (mkReader (BEGIN_LF +:+ "END:VEVENT") EOF)) =
    Some [BEGIN_LF].
Proof.
  destruct (C9_unterminated_line_is_dropped "u" BEGIN_LF "END:VEVENT" EOF)
    as [H1 H2]; [done..|].
  split; [exact H1|]. rewrite H2. reflexivity.
Defined.

(** *** The two line terminators *)

Lemma to_crlf_app (s1 s2 : string) :
  to_crlf (s1 +:+ s2) = to_crlf s1 +:+ to_crlf s2.
Proof.
  induction s1 as [|c s1 IH]; [done|].
  rewrite app_cons. simpl. rewrite IH. by destruct (decide (c = LF)).
Qed.

Lemma to_crlf_no_LF (s : string) : occurs LF s = false → to_crlf s = s.
Proof.
  induction s as [|c s IH]; [done|].
  simpl. intros [Hc Hs]%orb_false_iff. apply bool_decide_eq_false in Hc.
  by rewrite decide_False, IH.
Qed.

Lemma to_crlf_line (l : string) :
  occurs LF l = false → to_crlf (l +:+ nl) = l +:+ crnl.
Proof. intros Hl. by rewrite to_crlf_app, to_crlf_no_LF. Qed.

Lemma to_crlf_eq_nil (s : string) : to_crlf s = "" ↔ s = "".
Proof.
  split; [|by intros ->]. destruct s as [|c s]; [done|].
  simpl. by destruct (decide (c = LF)).
Qed.

Lemma crnl_nl (l : string) : l +:+ crnl = (l +:+ String CR "") +:+ nl.
Proof. by rewrite app_assoc. Qed.

Lemma line_eq_nl (l k : string) : l +:+ nl = k +:+ nl ↔ l = k.
Proof. split; [apply app_char_inj|by intros ->]. Qed.

Lemma line_eq_crnl (l k : string) : l +:+ crnl = k +:+ crnl ↔ l = k.
Proof.
  rewrite !crnl_nl, line_eq_nl. split; [apply app_char_inj|by intros ->].
Qed.

Lemma line_nl_ne_crnl (l k : string) :
  occurs CR l = false → l +:+ nl ≠ k +:+ crnl.
Proof.
  intros Hl. rewrite crnl_nl, line_eq_nl. intros ->.
  rewrite occurs_app in Hl. by apply orb_false_iff in Hl as [_ ?].
Qed.

Lemma line_crnl_ne_nl (l k : string) :
  occurs CR k = false → l +:+ crnl ≠ k +:+ nl.
Proof. intros Hk Heq. by eapply line_nl_ne_crnl. Qed.

Lemma marker_either_terminator (l name : string) :
  occurs CR l = false → occurs CR name = false →
  bool_decide (l +:+ crnl = name +:+ crnl) ||
    bool_decide (l +:+ crnl = name +:+ nl) =
  bool_decide (l +:+ nl = name +:+ crnl) ||
    bool_decide (l +:+ nl = name +:+ nl).
Proof.
  intros Hl Hname.
  rewrite (bool_decide_eq_false_2 (l +:+ crnl = name +:+ nl))
    by by apply line_crnl_ne_nl.
  rewrite (bool_decide_eq_false_2 (l +:+ nl = name +:+ crnl))
    by by apply line_nl_ne_crnl.
  rewrite orb_false_r, orb_false_l.
  apply bool_decide_ext. by rewrite line_eq_nl, line_eq_crnl.
Qed.

Lemma is_begin_either_terminator (l : string) :
  plain l → is_begin (l +:+ crnl) = is_begin (l +:+ nl).
Proof. intros [Hl _]. by apply marker_either_terminator. Qed.

Lemma is_end_either_terminator (l : string) :
  plain l → is_end (l +:+ crnl) = is_end (l +:+ nl).
Proof. intros [Hl _]. by apply marker_either_terminator. Qed.

Lemma on_line_either_terminator (l : string) (st : locals) :
  plain l →
  on_line (l +:+ crnl) (locals_crlf st) =
    (locals_crlf (on_line (l +:+ nl) st).1,
     to_crlf <$> (on_line (l +:+ nl) st).2).
Proof.
  intros Hl. unfold on_line.
  rewrite is_begin_either_terminator, is_end_either_terminator by done.
  destruct Hl as [_ Hl].
  destruct (is_begin (l +:+ nl)); simpl.
  { unfold locals_crlf; simpl. by rewrite to_crlf_line. }
  destruct (inEvent st); [|done].
  destruct (is_end (l +:+ nl)); simpl;
    unfold locals_crlf; simpl; by rewrite to_crlf_app, to_crlf_line.
Qed.

Lemma scan_either_terminator (ls : list string) (st : locals) :
  Forall plain ls →
  scan ((λ l, l +:+ crnl) <$> ls) (locals_crlf st) =
    (locals_crlf (scan ((λ l, l +:+ nl) <$> ls) st).1,
     to_crlf <$> (scan ((λ l, l +:+ nl) <$> ls) st).2).
Proof.
  intros Hls. revert st. induction Hls as [|l ls Hl Hls IH]; intros st; [done|].
  simpl. rewrite on_line_either_terminator by done.
  destruct (on_line (l +:+ nl) st) as [st1 sent1]; simpl.
  rewrite IH. destruct (scan _ st1) as [st2 sent2]; simpl.
  by rewrite fmap_app.
Qed.

Lemma lines_line_app (l rest : string) :
  occurs LF l = false →
  lines ((l +:+ nl) +:+ rest) = ((l +:+ nl) :: (lines rest).1, (lines rest).2).
Proof.
  intros Hl. induction l as [|c l IH].
  - rewrite !app_nil_l. unfold nl. rewrite app_cons, app_nil_l. simpl.
    by destruct (lines rest).
  - simpl in Hl. apply orb_false_iff in Hl as [Hc Hl].
    apply bool_decide_eq_false in Hc.
    rewrite !app_cons. simpl. rewrite (IH Hl). by rewrite decide_False.
Qed.

Lemma lines_render_nl (ls : list string) :
  Forall plain ls → lines (render nl ls) = ((λ l, l +:+ nl) <$> ls, "").
Proof.
  induction 1 as [|l ls [_ Hl] Hls IH]; [done|].
  unfold render in *. simpl. by rewrite lines_line_app, IH.
Qed.

Lemma lines_render_crnl (ls : list string) :
  Forall plain ls → lines (render crnl ls) = ((λ l, l +:+ crnl) <$> ls, "").
Proof.
  induction 1 as [|l ls [Hcr Hl] Hls IH]; [done|].
  unfold render in *. simpl. rewrite crnl_nl, lines_line_app, IH; [done|].
  rewrite occurs_app, Hl. done.
Qed.

(** C6. Take a body as a list of lines without their terminators. The
    values sent for the body with every line terminated by CR LF are
    those sent for the body with every line terminated by LF, one for
    one, with each LF replaced by CR LF: the same lines in the same
    units. A line is a begin marker, or an end marker, under one
    terminator exactly when it is under the other. *)
Theorem C6_terminators_are_equivalent (url : string) (ls : list string) :
  Forall plain ls →
  Forall (λ l, is_begin (l +:+ crnl) = is_begin (l +:+ nl) ∧
               is_end (l +:+ crnl) = is_end (l +:+ nl)) ls ∧
  FetchICS url (GetOk (mkReader (render crnl ls) EOF)) =
    (λ sent : list string, to_crlf <$> sent) <$>
      FetchICS url (GetOk (mkReader (render nl ls) EOF)).
Proof.
  intros Hls. split.
  { eapply Forall_impl; [done|]. intros l Hl.
    by rewrite is_begin_either_terminator, is_end_either_terminator. }
  rewrite !FetchICS_scan. simpl.
  rewrite lines_render_nl, lines_render_crnl by done. simpl.
  change Idle with (locals_crlf Idle) at 1.
  rewrite scan_either_terminator by done.
  destruct (scan _ Idle) as [st sent]; simpl.
  f_equal. rewrite fmap_app. f_equal.
  destruct (decide (event st = "")) as [Hev|Hev].
  - by rewrite decide_True by by apply to_crlf_eq_nil.
  - by rewrite decide_False by by rewrite to_crlf_eq_nil.
Qed.

Lemma C6_terminators_are_equivalent_witness :
  FetchICS "u" (GetOk (mkReader
    (render crnl ["BEGIN:VEVENT"; "SUMMARY:Canada Day"; "END:VEVENT"]) EOF)) =
  Some [BEGIN_CRLF +:+ "SUMMARY:Canada Day" +:+ crnl +:+ END_CRLF].
Proof.
  destruct (C6_terminators_are_equivalent "u"
              ["BEGIN:VEVENT"; "SUMMARY:Canada Day"; "END:VEVENT"]) as [_ ->].
  - by repeat constructor.
  - reflexivity.
Defined.

End FetcherFacts.

(** ** The calendar combiner *)

Module CombinerFacts.
Import Ical Combiner.

(** *** Insertion sort meets the contract of [sort.Slice] *)

Section insertion.
Context (lt : ptr → ptr → option bool) (dom : ptr → Prop).
Hypothesis lt_total : ∀ x y, dom x → dom y → is_Some (lt x y).
Hypothesis lt_irrefl : ∀ x, dom x → lt x x = Some false.
Hypothesis lt_trans : ∀ x y z, dom x → dom y → dom z →
  lt x y = Some true → lt y z = Some true → lt x z = Some true.

(** The order of the reversed prefix: an element is not less than
    the one after it. *)
Let ge : relation ptr := λ x y, lt x y = Some false.

Lemma lt_asym (x y : ptr) :
  dom x → dom y → lt x y = Some true → lt y x = Some false.
Proof using lt_total lt_irrefl lt_trans.
  intros Hx Hy Hxy. destruct (lt_total y x Hy Hx) as [[] Hyx]; [|done].
  pose proof (lt_trans x y x Hx Hy Hx Hxy Hyx) as Hxx.
  rewrite lt_irrefl in Hxx by done. done.
Qed.

Lemma insert_left_spec (x : ptr) (prefix : list ptr) :
  dom x → Forall dom prefix → Sorted ge prefix →
  ∃ p, insert_left lt x prefix = Some p ∧ p ≡ₚ x :: prefix ∧
       Sorted ge p ∧
       ∀ y, ge y x → HdRel ge y prefix → HdRel ge y p.
Proof using lt_total lt_irrefl lt_trans.
  intros Hx Hdom Hsorted.
  induction prefix as [|y prefix IH]; simpl.
  { exists [x]. split_and!; [done..| |]; by repeat constructor. }
  apply Forall_cons in Hdom as [Hy Hdom].
  apply Sorted_inv in Hsorted as [Hsorted Hhd].
  destruct (lt_total x y Hx Hy) as [[] Hxy]; rewrite Hxy; simpl.
  - destruct (IH Hdom Hsorted) as (p & -> & Hperm & Hp & Hhead). simpl.
    exists (y :: p). split_and!; [done| | |].
    + rewrite Hperm. apply Permutation_swap.
    + constructor; [done|]. apply Hhead; [|done]. by apply lt_asym.
    + intros z _ Hz. apply HdRel_inv in Hz. by constructor.
  - exists (x :: y :: prefix). split_and!; [done..| |].
    + by repeat constructor.
    + intros z Hz _. by constructor.
Qed.

Lemma insertion_loop_spec (l prefix : list ptr) :
  Forall dom l → Forall dom prefix → Sorted ge prefix →
  ∃ l', insertion_loop lt l prefix = Some l' ∧ l' ≡ₚ prefix ++ l ∧
        Sorted (flip ge) l'.
Proof using lt_total lt_irrefl lt_trans.
  intros Hl. revert prefix.
  induction Hl as [|x l Hx Hl IH]; intros prefix Hprefix Hsorted; simpl.
  { exists (reverse prefix). split_and!; [done| |].
    - by rewrite reverse_Permutation, app_nil_r.
    - by apply Sorted_reverse. }
  destruct (insert_left_spec x prefix) as (p & -> & Hperm & Hp & _);
    [done..|]. simpl.
  destruct (IH p) as (l' & -> & Hperm' & Hl'); [by rewrite Hperm; constructor|done|].
  exists l'. split_and!; [done| |done].
  rewrite Hperm', Hperm. simpl. apply Permutation_middle.
Qed.

End insertion.

Lemma insertionSort_sorts : sorts insertionSort.
Proof.
  intros l lt Htotal Hirrefl Htrans _.
  assert (Hl : Forall (.∈ l) l) by (apply Forall_forall; auto).
  destruct (insertion_loop_spec lt (.∈ l) Htotal Hirrefl Htrans l [] Hl)
    as (l' & Hl' & Hperm & Hsorted); [constructor..|].
  exists l'. by split_and!.
Qed.

Lemma reversingSort_sorts : sorts reversingSort.
Proof.
  intros l lt Htotal Hirrefl Htrans Hneg.
  destruct (insertionSort_sorts (reverse l) lt) as (l' & Hl' & Hperm & Hsorted).
  - intros x y. rewrite !elem_of_reverse. apply Htotal.
  - intros x. rewrite elem_of_reverse. apply Hirrefl.
  - intros x y z. rewrite !elem_of_reverse. apply Htrans.
  - intros x y z. rewrite !elem_of_reverse. apply Hneg.
  - exists l'. split_and!; [done| |done]. by rewrite Hperm, reverse_Permutation.
Qed.

(** *** The comparison of start times *)

Lemma ltb_leb (s1 s2 : string) : String.ltb s1 s2 = negb (String.leb s2 s1).
Proof.
  unfold String.ltb, String.leb. rewrite (String.compare_antisym s2 s1).
  by destruct (String.compare s1 s2).
Qed.

Lemma ltb_false (s1 s2 : string) :
  String.ltb s1 s2 = false ↔ (s2 ≤ s1)%string.
Proof.
  rewrite ltb_leb. unfold String.le.
  destruct (String.leb s2 s1); simpl; split; done.
Qed.

Lemma ltb_true (s1 s2 : string) :
  String.ltb s1 s2 = true ↔ ¬ (s2 ≤ s1)%string.
Proof.
  rewrite <-ltb_false. destruct (String.ltb s1 s2); split; done.
Qed.

Section comparator.
Context (h : heap) (events : list ptr).
Hypothesis have_start : Forall (λ e, is_Some (startTime h e)) events.

Lemma less_eq (x y : ptr) (sx sy : string) :
  startTime h x = Some sx → startTime h y = Some sy →
  less h x y = Some (String.ltb sx sy).
Proof. intros Hx Hy. unfold less. by rewrite Hx, Hy. Qed.

Lemma have_startTime (x : ptr) : x ∈ events → is_Some (startTime h x).
Proof using have_start.
  intros Hx. rewrite Forall_forall in have_start. by apply have_start.
Qed.

Lemma less_total (x y : ptr) :
  x ∈ events → y ∈ events → is_Some (less h x y).
Proof using have_start.
  intros [sx Hx]%have_startTime [sy Hy]%have_startTime.
  by rewrite (less_eq x y sx sy).
Qed.

Lemma less_irrefl (x : ptr) : x ∈ events → less h x x = Some false.
Proof using have_start.
  intros [sx Hx]%have_startTime. rewrite (less_eq x x sx sx) by done.
  f_equal. by apply ltb_false.
Qed.

Lemma less_trans (x y z : ptr) :
  x ∈ events → y ∈ events → z ∈ events →
  less h x y = Some true → less h y z = Some true → less h x z = Some true.
Proof using have_start.
  intros [sx Hx]%have_startTime [sy Hy]%have_startTime
         [sz Hz]%have_startTime.
  rewrite (less_eq x y sx sy), (less_eq y z sy sz), (less_eq x z sx sz)
    by done.
  intros [= Hxy%ltb_true] [= Hyz%ltb_true].
  f_equal. apply ltb_true. intros Hzx.
  destruct (total String.le sx sy) as [Hle|Hle]; [|done].
  apply Hyz. by etrans.
Qed.

Lemma less_negtrans (x y z : ptr) :
  x ∈ events → y ∈ events → z ∈ events →
  less h x y = Some false → less h y z = Some false →
  less h x z = Some false.
Proof using have_start.
  intros [sx Hx]%have_startTime [sy Hy]%have_startTime
         [sz Hz]%have_startTime.
  rewrite (less_eq x y sx sy), (less_eq y z sy sz), (less_eq x z sx sz)
    by done.
  intros [= Hxy%ltb_false] [= Hyz%ltb_false].
  f_equal. apply ltb_false. by etrans.
Qed.

Lemma sorted_by_less (l : list ptr) :
  l ⊆ events → Sorted (λ x y, less h y x = Some false) l →
  StronglySorted (startTime_le h) l.
Proof using have_start.
  intros Hsub Hsorted.
  assert (Hle : Sorted (λ x y, x ∈ events ∧ y ∈ events ∧ startTime_le h x y) l).
  { induction Hsorted as [|x l Hl IH Hhd]; [constructor|].
    constructor; [apply IH; set_solver|].
    destruct Hhd as [|y l Hyx]; constructor.
    assert (x ∈ events ∧ y ∈ events) as [Hx Hy] by set_solver.
    split_and!; [done..|].
    destruct (have_startTime x Hx) as [sx Hsx].
    destruct (have_startTime y Hy) as [sy Hsy].
    exists sx, sy. split_and!; [done..|].
    apply ltb_false. rewrite (less_eq y x sy sx) in Hyx by done.
    congruence. }
  clear Hsub Hsorted. apply Sorted_StronglySorted in Hle.
  - induction Hle as [|x l' _ IH Hall]; constructor; [apply IH|].
    eapply Forall_impl; [exact Hall|]. by intros y (_ & _ & ?).
  - intros x y z (Hx & Hy & sx & sy & Hsx & Hsy & Hxy)
                 (_ & Hz & sy' & sz & Hsy' & Hsz & Hyz).
    split_and!; [done..|]. exists sx, sz. split_and!; [done..|].
    rewrite Hsy in Hsy'. injection Hsy' as <-. by etrans.
Qed.

End comparator.

(** *** The heap after the call *)

Lemma Events_Some (h : heap) (cal : ptr) (events : list ptr) :
  Events h cal = Some events ↔
  ∃ c, calendars h !! cal = Some c ∧ events = events_of c.
Proof.
  unfold Events. destruct (calendars h !! cal) as [c|]; simpl.
  - split; [intros [= <-]; by exists c|]. by intros (c' & [= <-] & ->).
  - split; [done|]. by intros (c' & [=] & _).
Qed.

Lemma events_of_VEvents (events : list ptr) (props : list IANAProperty) :
  events_of (mkCalendar (CompVEvent <$> events) props) = events.
Proof.
  unfold events_of. simpl. induction events as [|e events IH]; [done|].
  csimpl. by rewrite IH.
Qed.

Lemma NewCalendar_fresh (h : heap) : calendars h !! (NewCalendar h).2 = None.
Proof. simpl. apply not_elem_of_dom, is_fresh. Qed.

Lemma less_frame (h : heap) (cals : gmap ptr Calendar) :
  less (mkHeap (vevents h) cals) = less h.
Proof. done. Qed.

Lemma AddVEvents_spec (h : heap) (cal : ptr) (c : Calendar)
    (events : list ptr) :
  calendars h !! cal = Some c →
  AddVEvents h cal events =
    Some (mkHeap (vevents h)
            (<[cal := mkCalendar (Components c ++ (CompVEvent <$> events))
                        (CalendarProperties c)]> (calendars h))).
Proof.
  revert h c. induction events as [|e events IH]; intros h c Hc; simpl.
  - rewrite app_nil_r. destruct h as [evs cals], c as [comps props].
    simpl in *. by rewrite insert_id.
  - unfold AddVEvent. rewrite Hc. simpl.
    erewrite IH by (simpl; apply lookup_insert_eq). simpl.
    by rewrite insert_insert_eq, <-(assoc_L (++)).
Qed.

(** The call, step by step: the events of both calendars are sorted
    and a calendar with exactly them is allocated at a new pointer. *)
Lemma combineCalendars_eq sort_Slice (h : heap) (cal1 cal2 : ptr)
    (events1 events2 : list ptr) :
  Events h cal1 = Some events1 → Events h cal2 = Some events2 →
  combineCalendars sort_Slice h cal1 cal2 =
    events ← sort_Slice (events1 ++ events2) (less h);
    Some (mkHeap (vevents h)
            (<[(NewCalendar h).2 :=
                 mkCalendar (CompVEvent <$> events)
                   [mkProperty "VERSION" [] "2.0";
                    mkProperty "PRODID" [] "-//arran4//Golang ICS Library"]]>
               (calendars h)),
          (NewCalendar h).2).
Proof.
  intros (c1 & Hc1 & ->)%Events_Some (c2 & Hc2 & ->)%Events_Some.
  pose proof (NewCalendar_fresh h) as Hnew.
  unfold combineCalendars, NewCalendar in *. simpl in *.
  set (new := fresh (dom (calendars h))) in *.
  unfold Events. simpl.
  rewrite !lookup_insert_ne by congruence. rewrite Hc1, Hc2. simpl.
  rewrite less_frame.
  destruct (sort_Slice _ (less h)) as [events|]; [|done]. simpl.
  erewrite AddVEvents_spec by (simpl; apply lookup_insert_eq). simpl.
  by rewrite insert_insert_eq.
Qed.

(** C8. A call on two calendars that returns leaves every event object
    and every calendar that existed before as it was, the two inputs
    with their components and the order of their events among them; all
    it adds is the returned calendar, at a pointer that was not in use. *)
Theorem C8_inputs_are_not_mutated sort_Slice (h h' : heap)
    (cal1 cal2 combinedCal : ptr) :
  is_Some (calendars h !! cal1) → is_Some (calendars h !! cal2) →
  combineCalendars sort_Slice h cal1 cal2 = Some (h', combinedCal) →
  calendars h !! combinedCal = None ∧
  vevents h' = vevents h ∧
  (∀ cal, cal ≠ combinedCal → calendars h' !! cal = calendars h !! cal) ∧
  calendars h' !! cal1 = calendars h !! cal1 ∧
  calendars h' !! cal2 = calendars h !! cal2 ∧
  Events h' cal1 = Events h cal1 ∧
  Events h' cal2 = Events h cal2.
Proof.
  intros [c1 Hc1] [c2 Hc2].
  rewrite (combineCalendars_eq _ h cal1 cal2 (events_of c1) (events_of c2))
    by (apply Events_Some; eauto).
  destruct (sort_Slice _ _) as [events|]; [|done]. simpl.
  intros [= <- <-]. pose proof (NewCalendar_fresh h) as Hnew.
  assert (Hframe : ∀ cal, cal ≠ (NewCalendar h).2 →
            <[(NewCalendar h).2 := mkCalendar (CompVEvent <$> events)
                 [mkProperty "VERSION" [] "2.0";
                  mkProperty "PRODID" [] "-//arran4//Golang ICS Library"]]>
              (calendars h) !! cal = calendars h !! cal)
    by (intros cal Hcal; by rewrite lookup_insert_ne).
  assert (cal1 ≠ (NewCalendar h).2) by congruence.
  assert (cal2 ≠ (NewCalendar h).2) by congruence.
  unfold Events; simpl. split_and!; [done..| | | |]; by rewrite Hframe.
Qed.

(** *** The combined calendar *)

Lemma combineCalendars_sorted sort_Slice (h : heap) (cal1 cal2 : ptr)
    (events1 events2 : list ptr) :
  sorts sort_Slice →
  Events h cal1 = Some events1 → Events h cal2 = Some events2 →
  Forall (λ e, is_Some (startTime h e)) (events1 ++ events2) →
  ∃ h' combinedCal,
    combineCalendars sort_Slice h cal1 cal2 = Some (h', combinedCal) ∧
    ∃ events,
      calendars h !! combinedCal = None ∧
      Events h' combinedCal = Some events ∧
      events ≡ₚ events1 ++ events2 ∧
      StronglySorted (startTime_le h') events.
Proof.
  intros Hsort Hev1 Hev2 Hstart.
  rewrite (combineCalendars_eq _ h cal1 cal2 events1 events2) by done.
  destruct (Hsort (events1 ++ events2) (less h))
    as (events & -> & Hperm & Hsorted).
  - by apply less_total.
  - by apply less_irrefl.
  - by apply less_trans.
  - by apply less_negtrans.
  - simpl. eexists _, _. split; [done|]. exists events. split_and!.
    + apply NewCalendar_fresh.
    + unfold Events. simpl. rewrite lookup_insert_eq. simpl.
      by rewrite events_of_VEvents.
    + done.
    + apply (sorted_by_less h (events1 ++ events2) Hstart); [|done].
      intros e. by rewrite Hperm.
Qed.

(** C3, amended. For two calendars with a and b events, every event
    with a DTSTART property, the call returns a new calendar with
    exactly a+b events: the events of both calendars, each as often as
    it occurs in them, in an order that is non-decreasing under the
    comparison of the raw DTSTART values as strings. The order of events
    with equal DTSTART values is not determined. *)
Theorem C3_combined_is_sorted sort_Slice (h : heap) (cal1 cal2 : ptr)
    (events1 events2 : list ptr) :
  sorts sort_Slice →
  Events h cal1 = Some events1 → Events h cal2 = Some events2 →
  Forall (λ e, is_Some (startTime h e)) (events1 ++ events2) →
  ∃ h' combinedCal events,
    combineCalendars sort_Slice h cal1 cal2 = Some (h', combinedCal) ∧
    calendars h !! combinedCal = None ∧
    Events h' combinedCal = Some events ∧
    length events = length events1 + length events2 ∧
    events ≡ₚ events1 ++ events2 ∧
    StronglySorted (startTime_le h') events.
Proof.
  intros Hsort Hev1 Hev2 Hstart.
  destruct (combineCalendars_sorted sort_Slice h cal1 cal2 events1 events2)
    as (h' & c & Hc & events & Hnew & Hev & Hperm & Hsorted); [done..|].
  exists h', c, events. split_and!; [done..| |done|done].
  by rewrite Hperm, length_app.
Qed.

Lemma C3_combined_is_sorted_witness :
  ∃ h' combinedCal events,
    combineCalendars insertionSort mockHeap 1 2 = Some (h', combinedCal) ∧
    calendars mockHeap !! combinedCal = None ∧
    Events h' combinedCal = Some events ∧
    length events = 2 + 2 ∧
    events ≡ₚ [1; 2; 3; 4]%positive ∧
    StronglySorted (startTime_le h') events.
Proof.
  apply (C3_combined_is_sorted insertionSort mockHeap 1 2
           [1; 2]%positive [3; 4]%positive).
  - apply insertionSort_sorts.
  - reflexivity.
  - reflexivity.
  - repeat constructor; by eexists.
Defined.

(** *** The nil pointer of a missing DTSTART *)

(** With the insertion sort the library runs on short slices, an event
    without DTSTART among two or more makes the call panic. *)
Example combineCalendars_panics_without_DtStart :
  combineCalendars insertionSort mockHeapNoStart 1 2 = None.
Proof. by vm_compute. Qed.

(** C10. The comparison reads [Value] through the pointer [GetProperty]
    returns: for an event without DTSTART that pointer is nil and the
    comparison panics. When both arguments are calendars and every
    event of theirs has a DTSTART property, the call returns: no
    nil pointer is read. *)
Theorem C10_DtStart_precondition sort_Slice (h : heap) (cal1 cal2 : ptr) :
  sorts sort_Slice →
  events_have_DtStart h cal1 → events_have_DtStart h cal2 →
  is_Some (combineCalendars sort_Slice h cal1 cal2) ∧
  ∀ ei ej,
    GetProperty h ei ComponentPropertyDtStart = Some None ∨
    GetProperty h ej ComponentPropertyDtStart = Some None →
    less h ei ej = None.
Proof.
  intros Hsort (events1 & Hev1 & Hstart1) (events2 & Hev2 & Hstart2). split.
  - destruct (combineCalendars_sorted sort_Slice h cal1 cal2 events1 events2)
      as (h' & c & -> & _); [done..|by apply Forall_app|done].
  - intros ei ej [Hnil|Hnil]; unfold less, startTime; rewrite Hnil; simpl;
      [done|]. by destruct (GetProperty h ei _) as [[p|]|].
Qed.

Lemma C10_DtStart_precondition_witness :
  is_Some (combineCalendars insertionSort mockHeap 1 2).
Proof.
  apply (C10_DtStart_precondition insertionSort mockHeap 1 2).
  - apply insertionSort_sorts.
  - exists [1; 2]%positive. split; [reflexivity|]. repeat constructor; by eexists.
  - exists [3; 4]%positive. split; [reflexivity|]. repeat constructor; by eexists.
Defined.

Lemma C8_inputs_are_not_mutated_witness :
  ∃ h', combineCalendars insertionSort mockHeap 1 2 = Some (h', 3%positive) ∧
        calendars h' !! 1%positive = calendars mockHeap !! 1%positive ∧
        calendars h' !! 2%positive = calendars mockHeap !! 2%positive ∧
        vevents h' = vevents mockHeap.
Proof.
  destruct (combineCalendars insertionSort mockHeap 1 2) as [[h' c]|] eqn:Hc;
    [|by vm_compute in Hc].
  assert (c = 3%positive) as -> by (vm_compute in Hc; congruence).
  exists h'. split; [done|].
  destruct (C8_inputs_are_not_mutated insertionSort mockHeap h' 1 2 3)
    as (_ & ? & _ & ? & ? & _); [by eexists..|done|done].
Defined.

End CombinerFacts.

(** ** The Go library: sort.Slice on the combined events *)

Module GoSortFacts.
Import Ical Combiner GoSort January.

(** *** Short slices: the insertion sort *)

Lemma insert_left_length lt x prefix prefix' :
  insert_left lt x prefix = Some prefix' → length prefix' = S (length prefix).
Proof.
  revert prefix'. induction prefix as [|y p IH]; intros q; simpl.
  - by intros [= <-].
  - destruct (lt x y) as [[]|]; simpl; [|by intros [= <-]|done].
    destruct (insert_left lt x p) as [q'|]; simpl; [|done].
    intros [= <-]. simpl. by rewrite (IH q').
Qed.

(** The inner loop of [insertionSort_func] on the element behind a
    sorted prefix is [insert_left] into the reversed prefix. *)
Lemma insertionSort_inner_insert_left lt x prefix rest :
  insertionSort_inner lt (reverse prefix ++ x :: rest) 0 (length prefix)
  = (λ prefix', reverse prefix' ++ rest) <$> insert_left lt x prefix.
Proof.
  revert rest. induction prefix as [|y p IH]; intros s; [done|].
  cbn [length insertionSort_inner insert_left].
  rewrite decide_True by lia.
  rewrite reverse_cons, <-!(assoc_L (++)). simpl.
  assert (Hj : (reverse p ++ y :: x :: s) !! S (length p) = Some x).
  { rewrite lookup_app_r; rewrite length_reverse; [|lia].
    by replace (S (length p) - length p) with 1 by lia. }
  assert (Hj' : (reverse p ++ y :: x :: s) !! length p = Some y).
  { rewrite lookup_app_r; rewrite length_reverse; [|lia].
    by replace (length p - length p) with 0 by lia. }
  unfold Less. rewrite Hj, Hj'. simpl.
  destruct (lt x y) as [[]|]; simpl; [| |done].
  - unfold Swap. rewrite Hj, Hj'. simpl.
    rewrite insert_app_r_alt; rewrite length_reverse; [|lia].
    replace (S (length p) - length p) with 1 by lia. simpl.
    rewrite insert_app_r_alt; rewrite length_reverse; [|lia].
    replace (length p - length p) with 0 by lia. simpl.
    rewrite IH. destruct (insert_left lt x p) as [q|]; simpl; [|done].
    by rewrite reverse_cons, <-(assoc_L (++)).
  - by rewrite !reverse_cons, <-!(assoc_L (++)).
Qed.

Lemma insertionSort_outer_insertion_loop lt rest prefix :
  insertionSort_outer lt (length rest) (reverse prefix ++ rest) 0
    (length prefix)
  = insertion_loop lt rest prefix.
Proof.
  revert prefix. induction rest as [|x r IH]; intros p; simpl.
  - by rewrite (right_id_L [] (++)).
  - rewrite insertionSort_inner_insert_left.
    destruct (insert_left lt x p) as [q|] eqn:Hq; simpl; [|done].
    rewrite <-(insert_left_length lt x p q Hq). apply IH.
Qed.

(** Up to [maxInsertion] elements, [sort.Slice] is [insertionSort]. *)
Lemma Slice_short breakPatterns_func l lt :
  length l ≤ 12 → Slice breakPatterns_func l lt = insertionSort l lt.
Proof.
  intros Hl. unfold Slice, pdqsort_func. cbn [pdqsort_loop].
  rewrite decide_True by lia.
  unfold insertionSort_func, insertionSort.
  destruct l as [|x l]; [done|]. simpl.
  replace (length l - 0) with (length l) by lia.
  apply (insertionSort_outer_insertion_loop lt l [x]).
Qed.

(** Two calendars with twelve events or fewer between them are combined
    as with [insertionSort]. *)
Lemma combineCalendars_Slice_short breakPatterns_func (h : heap)
    (cal1 cal2 : ptr) (events1 events2 : list ptr) :
  Events h cal1 = Some events1 → Events h cal2 = Some events2 →
  length events1 + length events2 ≤ 12 →
  combineCalendars (Slice breakPatterns_func) h cal1 cal2
  = combineCalendars insertionSort h cal1 cal2.
Proof.
  intros Hev1 Hev2 Hlen.
  rewrite !(CombinerFacts.combineCalendars_eq _ h cal1 cal2 events1 events2)
    by done.
  rewrite Slice_short; [done|]. by rewrite length_app.
Qed.

(** On the four events of the test calendars the two events of 20230101
    stay in the order they are appended in. *)
Example Slice_mockHeap breakPatterns_func :
  Slice breakPatterns_func [1; 2; 3; 4]%positive (less mockHeap)
  = Some [1; 3; 4; 2]%positive.
Proof. by vm_compute. Qed.

(** *** Thirteen events: the quicksort *)

(** C3, as the specification states it, does not hold, for two reasons.

    The sort is not stable. The calendars of [januaryHeap] have 7 and 6
    events; the events 1 and 7 both start on 20230106 and event 1 is
    the first of the appended slice. With thirteen elements
    [sort.Slice] does not sort by insertion: [choosePivot_func] takes
    the median of the elements 3, 6 and 9 of the slice, which is element
    6, event 7; [partition_func] swaps it with the first element, event
    1, and then puts it behind the five events that are less, in front
    of event 1. Both halves are then sorted by insertion, and in the
    combined calendar event 7 comes before event 1. The generator of
    [breakPatterns_func] has no part in it: the run is the same for
    every one.

    The call does not return for every pair of calendars. With the
    second event of the test calendars without DTSTART the comparison
    reads [Value] through a nil pointer and the call panics. *)
Lemma C3_sort_Slice_is_not_stable :
  Events januaryHeap 1 = Some [1; 2; 3; 4; 5; 6; 7]%positive ∧
  Events januaryHeap 2 = Some [8; 9; 10; 11; 12; 13]%positive ∧
  startTime januaryHeap 1 = Some "20230106" ∧
  startTime januaryHeap 7 = Some "20230106" ∧
  (∀ breakPatterns_func,
     ('(h', combinedCal) ←
        combineCalendars (Slice breakPatterns_func) januaryHeap 1 2;
      Events h' combinedCal)
     = Some [2; 3; 4; 5; 6; 7; 1; 8; 9; 10; 11; 12; 13]%positive) ∧
  ¬ stable januaryHeap
      [1; 2; 3; 4; 5; 6; 7; 8; 9; 10; 11; 12; 13]%positive
      [2; 3; 4; 5; 6; 7; 1; 8; 9; 10; 11; 12; 13]%positive ∧
  (∀ breakPatterns_func,
     combineCalendars (Slice breakPatterns_func) mockHeapNoStart 1 2 = None).
Proof.
  split_and!; [by vm_compute..| | |].
  - intros breakPatterns_func. by vm_compute.
  - intros Hstable. specialize (Hstable "20230106").
    vm_compute in Hstable. discriminate.
  - intros breakPatterns_func. by vm_compute.
Qed.

End GoSortFacts.

(** ** The fan-in aggregator *)

Module AggregatorFacts.
Import Fetcher Aggregator.

Lemma sum_list_insert (w : fetch_pc → nat) (fs : list fetch_pc) (i : nat)
    (f f' : fetch_pc) :
  fs !! i = Some f →
  sum_list (w <$> <[i:=f']> fs) + w f = sum_list (w <$> fs) + w f'.
Proof.
  revert i. induction fs as [|g fs IH]; intros [|i] Hi; simplify_eq/=; [lia|].
  specialize (IH i Hi). lia.
Qed.

Lemma to_send_insert (fs : list fetch_pc) (i : nat) (f f' : fetch_pc) :
  fs !! i = Some f →
  concat (to_send <$> <[i:=f']> fs) ++ to_send f ≡ₚ
  concat (to_send <$> fs) ++ to_send f'.
Proof.
  revert i. induction fs as [|g fs IH]; intros [|i] Hi; simplify_eq/=.
  - solve_Permutation.
  - rewrite <-!(assoc_L (++)). by rewrite (IH i Hi).
Qed.

Ltac break_hyps :=
  repeat match goal with
         | H : _ ∧ _ |- _ => destruct H
         | H : ∃ _, _ |- _ => destruct H
         end.

Ltac closer_cases c :=
  destruct c; break_hyps; simplify_eq/=; try done; try lia;
  repeat split; eauto.

Section facts.
Context (net : string → Response) (config : Config) (urls : list string).

Lemma init_invariant : invariant net config urls (init urls).
Proof. split; simpl; [done|done|lia|done|eauto|done]. Qed.

Lemma step_handler_invariant (s s' : state) :
invariant net config urls s → step_handler net config s = Some s' →
invariant net config urls s'.
Proof.
intros [Hp Hwg Hl Hv Hc Hh] Hstep.
destruct s as [h fs c w cl p r wr]. unfold step_handler in Hstep.
simpl in *. destruct h as [[|url us]| | | |]; simpl in *.
- injection Hstep as <-. destruct Hh as (-> & -> & ->).
  destruct Hc as [-> _]. by split.
- injection Hstep as <-. destruct Hh as (-> & -> & ->).
  destruct Hc as [-> _]. split; simpl.
  + done.
  + rewrite fmap_app, sum_list_with_app. simpl. lia.
  + rewrite length_app. simpl. lia.
  + rewrite <-Hv, fmap_app, concat_app. simpl.
    by rewrite app_nil_r, <-app_assoc.
  + eauto.
  + done.
- injection Hstep as <-. destruct Hh as [-> ->].
  split; simpl; try done. closer_cases c.
- destruct (decide (cl = 0)); [done|]. injection Hstep as <-.
  split; simpl; try done; closer_cases c.
- injection Hstep as <-. destruct Hh as [-> ->].
  split; simpl; try done. closer_cases c.
- done.
Qed.

Lemma step_closer_invariant (s s' : state) :
invariant net config urls s → step_closer s = Some s' →
invariant net config urls s'.
Proof.
intros [Hp Hwg Hl Hv Hc Hh] Hstep.
destruct s as [h fs c w cl p r wr]. unfold step_closer in Hstep.
simpl in *. destruct c; simpl in *; [done| | |done].
- destruct (decide (w = 0)); [|done]. injection Hstep as <-.
  destruct Hc as [-> Hc]. split; simpl; auto. closer_cases h.
- destruct Hc as (-> & Hw & Hc). simpl in *. injection Hstep as <-.
  split; simpl; try done. closer_cases h.
Qed.

Lemma step_fetch_invariant (i : nat) (s s' : state) :
invariant net config urls s → step_fetch i s = Some s' →
invariant net config urls s'.
Proof.
intros [Hp Hwg Hl Hv Hc Hh] Hstep.
destruct s as [h fs c w cl p r wr]. unfold step_fetch in Hstep.
simpl in *. destruct (fs !! i) as [[[|event pending]|]|] eqn:Hi; [| |done..].
- (* return; wg.Done() *)
  pose proof (sum_list_insert running fs i _ FetchDone Hi) as Hrun.
  pose proof (to_send_insert fs i _ FetchDone Hi) as Hsend.
  simpl in *. rewrite !app_nil_r in Hsend.
  destruct w as [|w]; [lia|]. injection Hstep as <-.
  split; simpl; try done.
  + lia.
  + by rewrite length_insert.
  + by rewrite Hsend.
  + closer_cases c.
- (* eventChan <- event *)
  pose proof (sum_list_insert running fs i _ (Sending pending) Hi) as Hrun.
  pose proof (to_send_insert fs i _ (Sending pending) Hi) as Hsend.
  simpl in *.
  destruct (decide (cl = 0)) as [->|Hcl].
  2:{ exfalso.
      pose proof (sum_list_insert running fs i _ FetchDone Hi).
      simpl in *. closer_cases c. }
  destruct h; try done. injection Hstep as <-. simpl in *.
  split; simpl; try done.
  + lia.
  + by rewrite length_insert.
  + rewrite <-Hv, !app_nil_r.
    rewrite <-(assoc_L (++)). f_equiv. simpl.
    apply (inj (λ l, l ++ pending)). 
    rewrite <-Hsend. solve_Permutation.
  + by rewrite Hh.
Qed.

Lemma step_invariant (g : goroutine) (s s' : state) :
  invariant net config urls s → step net config g s = Some s' →
  invariant net config urls s'.
Proof.
  intros Hinv. unfold step. rewrite (inv_panicked _ _ _ _ Hinv).
  destruct g; eauto using step_handler_invariant, step_fetch_invariant,
                           step_closer_invariant.
Qed.

Lemma run_invariant (schedule : list goroutine) (s s' : state) :
  invariant net config urls s → run net config schedule s = Some s' →
  invariant net config urls s'.
Proof.
  revert s. induction schedule as [|g schedule IH]; intros s Hinv; simpl.
  { by intros [= <-]. }
  destruct (step net config g s) as [s1|] eqn:Hstep; [|done]. simpl.
  apply IH. by eapply step_invariant.
Qed.

(** Every step uses up one of the steps left. *)
Lemma step_steps_left (g : goroutine) (s s' : state) :
  invariant net config urls s → step net config g s = Some s' →
  steps_left net s' < steps_left net s.
Proof.
  intros Hinv Hstep. pose proof (step_invariant g s s' Hinv Hstep) as Hinv'.
  pose proof (inv_panicked _ _ _ _ Hinv') as Hp'.
  destruct Hinv as [Hp _ _ _ _ Hh].
  unfold step in Hstep. rewrite Hp in Hstep. unfold steps_left.
  rewrite Hp, Hp'. clear Hinv' Hp.
  destruct s as [h fs c w cl p r wr]. simpl in *.
  destruct g as [|i|].
  - unfold step_handler in Hstep. simpl in *.
    destruct h as [[|url us]| | | |]; simpl in *.
    + destruct Hh as [-> _]. injection Hstep as <-. simpl. lia.
    + injection Hstep as <-. simpl.
      rewrite fmap_app, sum_list_with_app. simpl. unfold fmap. lia.
    + injection Hstep as <-. simpl. lia.
    + destruct (decide (cl = 0)); [done|]. injection Hstep as <-. simpl. lia.
    + injection Hstep as <-. simpl. lia.
    + done.
  - unfold step_fetch in Hstep. simpl in *.
    destruct (fs !! i) as [[[|event pending]|]|] eqn:Hi; [| |done..].
    + pose proof (sum_list_insert steps_of_fetcher fs i _ FetchDone Hi).
      destruct w; injection Hstep as <-; simpl in *; [done|lia].
    + pose proof (sum_list_insert steps_of_fetcher fs i _
                    (Sending pending) Hi).
      destruct (decide (cl = 0)); [|by injection Hstep as <-].
      destruct h; try done. injection Hstep as <-. simpl in *. lia.
  - unfold step_closer in Hstep. simpl in *.
    destruct c; simpl in *; [done| | |done].
    + destruct (decide (w = 0)); [|done]. injection Hstep as <-. simpl. lia.
    + destruct (decide (cl = 0)); injection Hstep as <-; simpl in *;
        [lia|done].
Qed.

Lemma run_steps_left (schedule : list goroutine) (s s' : state) :
  invariant net config urls s → run net config schedule s = Some s' →
  length schedule + steps_left net s' ≤ steps_left net s.
Proof.
  revert s. induction schedule as [|g schedule IH]; intros s Hinv; simpl.
  { intros [= <-]. lia. }
  destruct (step net config g s) as [s1|] eqn:Hstep; [|done]. simpl.
  intros Hrun. pose proof (step_steps_left g s s1 Hinv Hstep).
  pose proof (IH s1 (step_invariant g s s1 Hinv Hstep) Hrun). lia.
Qed.

Lemma none_running (fs : list fetch_pc) :
  sum_list (running <$> fs) = 0 ↔ Forall (FetchDone =.) fs.
Proof.
  induction fs as [|[p|] fs IH]; simpl.
  - split; [constructor|done].
  - split; [lia|]. by intros [[=] _]%Forall_cons.
  - rewrite Forall_cons, <-IH. tauto.
Qed.

Lemma some_running (fs : list fetch_pc) :
  sum_list (running <$> fs) ≠ 0 → ∃ i p, fs !! i = Some (Sending p).
Proof.
  induction fs as [|[p|] fs IH]; simpl; [done| |].
  - intros _. by exists 0, p.
  - intros (i & p & Hi)%IH. by exists (S i), p.
Qed.

Lemma nothing_to_send (fs : list fetch_pc) :
  Forall (FetchDone =.) fs → concat (to_send <$> fs) = [].
Proof. induction 1 as [|f fs <- _ IH]; [done|]. csimpl. by rewrite IH. Qed.

(** Until the handler has returned, some goroutine can move. *)
Lemma progress (s : state) :
  invariant net config urls s → handler s ≠ Returned →
  ∃ g s', step net config g s = Some s'.
Proof.
  intros [Hp Hwg Hl Hv Hc Hh] Hret.
  destruct s as [h fs c w cl p r wr]. unfold step. simpl in *. subst p.
  destruct h as [[|url us]| | | |]; [by exists Handler; eexists..| |
                                      by exists Handler; eexists|done].
  destruct (decide (cl = 0)) as [->|Hcl].
  2:{ exists Handler. unfold step_handler. simpl.
      rewrite decide_False by done. by eexists. }
  destruct (decide (w = 0)) as [->|Hw].
  - exists Closer. unfold step_closer. simpl.
    destruct c; break_hyps; simplify_eq/=; by eexists.
  - destruct (some_running fs) as (i & pending & Hi); [congruence|].
    exists (Fetch i). unfold step_fetch. simpl. rewrite Hi.
    destruct pending, w; try done; by eexists.
Qed.

(** From every state a run reaches, the handler can return. *)
Lemma can_return (s : state) :
  invariant net config urls s →
  ∃ schedule s', run net config schedule s = Some s' ∧ handler s' = Returned.
Proof.
  remember (steps_left net s) as n eqn:Hn. revert s Hn.
  induction (lt_wf n) as [n _ IH]. intros s -> Hinv.
  destruct (decide (handler s = Returned)) as [Hret|Hret].
  { by exists [], s. }
  destruct (progress s Hinv Hret) as (g & s1 & Hstep).
  destruct (IH (steps_left net s1)) with (s := s1)
    as (schedule & s' & Hrun & Hs'); [|done|..].
  - by eapply step_steps_left.
  - by eapply step_invariant.
  - exists (g :: schedule), s'. simpl. by rewrite Hstep.
Qed.

Lemma length_concat_sum (ls : list (list string)) :
  length (concat ls) = sum_list (length <$> ls).
Proof.
  induction ls as [|l ls IH]; [done|]. csimpl. by rewrite length_app, IH.
Qed.

End facts.

(** C2. In every state a run of [aggregateICS] reaches: at most one
    fetcher per URL has been launched, each sending on the one channel
    what [FetchICS] sends for its URL; no value was sent on the closed
    channel; the channel was closed at most once, and the closing
    goroutine is past [wg.Wait()] only when a fetcher has been launched
    for every URL and every fetcher has returned; when the handler has
    returned, the channel was closed once and the values received are
    those the fetchers sent, as many as all sources sent together,
    written between the header and the footer. Until the handler has
    returned some goroutine can move, no run is longer than the bound
    [steps_left], and every run can be completed: the channel is not left
    open. *)
Theorem C2_fan_in (net : string → Response) (config : Config)
    (schedule : list goroutine) (s : state) :
  aggregateICS net config schedule = Some s →
  Forall (λ url, FetchICS url (net url) = Some (sends net url)) icsURLs ∧
  length (fetchers s) ≤ length icsURLs ∧
  panicked s = false ∧
  closes s ≤ 1 ∧
  (closer s = Closing ∨ closes s = 1 →
     length (fetchers s) = length icsURLs ∧
     Forall (FetchDone =.) (fetchers s)) ∧
  (handler s = Returned →
     closes s = 1 ∧
     received s ≡ₚ concat (sends net <$> icsURLs) ∧
     length (received s) =
       sum_list ((λ url, length (sends net url)) <$> icsURLs) ∧
     written s = Header config :: received s ++ [Footer config]) ∧
  (handler s ≠ Returned → ∃ g s', step net config g s = Some s') ∧
  length schedule + steps_left net s ≤ steps_left net (init icsURLs) ∧
  (∃ rest s', run net config rest s = Some s' ∧ handler s' = Returned).
Proof.
  unfold aggregateICS. generalize icsURLs. intros urls Hrun.
  pose proof (run_invariant net config urls schedule _ s
                (init_invariant net config urls) Hrun) as Hinv.
  assert (Hclosed : closer s = Closing ∨ closes s = 1 →
            length (fetchers s) = length urls ∧
            Forall (FetchDone =.) (fetchers s)).
  { destruct Hinv as [_ Hwg Hl _ Hc _].
    intros Hcl. rewrite <-none_running, <-Hwg.
    destruct (closer s); destruct Hcl as [?|?]; break_hyps; simplify_eq;
      repeat match goal with H : to_launch _ = [] |- _ => rewrite H in Hl end;
      simpl in *; split; (done || lia). }
  split_and!.
  - apply Forall_forall. intros url _. unfold sends.
    by destruct (FetcherFacts.FetchICS_total url (net url)) as [l ->].
  - pose proof (inv_launched _ _ _ _ Hinv). lia.
  - by destruct Hinv.
  - destruct Hinv as [_ _ _ _ Hc _]. destruct (closer s); break_hyps; lia.
  - done.
  - intros Hret. pose proof (inv_handler _ _ _ _ Hinv) as Hh.
    pose proof (inv_values _ _ _ _ Hinv) as Hv.
    rewrite Hret in Hh, Hv. destruct Hh as [Hw Hcl].
    destruct (Hclosed (or_intror Hcl)) as [_ Hdone].
    rewrite (nothing_to_send _ Hdone) in Hv. simpl in Hv.
    rewrite app_nil_r in Hv.
    split_and!; [done..| |done].
    rewrite Hv, length_concat_sum, <-list_fmap_compose. done.
  - by apply (progress net config urls).
  - apply (run_steps_left net config urls); [apply init_invariant|done].
  - by apply (can_return net config urls).
Qed.


Lemma C2_fan_in_witness :
  handler mockFinal = Returned ∧
  closes mockFinal = 1 ∧
  fetchers mockFinal = [FetchDone; FetchDone] ∧
  length (received mockFinal) = 2 + 1 ∧
  received mockFinal ≡ₚ sends mockNet ColombianHolidaysURL ++
                        sends mockNet CanadianHolidaysURL.
Proof.
  destruct (C2_fan_in mockNet mockConfig mockSchedule mockFinal)
    as (_ & _ & _ & _ & _ & Hret & _); [by vm_compute|].
  destruct Hret as (Hcl & Hperm & _ & _); [reflexivity|].
  split_and!; [reflexivity|exact Hcl|reflexivity|reflexivity|].
  rewrite Hperm. vm_compute. reflexivity.
Defined.

End AggregatorFacts.

(** ** More on the event extractor *)

Module FeedFacts.
Import GoString GoStringFacts Fetcher FetcherFacts Feed.

(** *** The lines of a body *)

Lemma lines_join_rest (s : string) : s = join (lines s).1 +:+ (lines s).2.
Proof.
  induction s as [|c s IH]; [done|].
  simpl. destruct (lines s) as [ls rest]; simpl in *.
  destruct (decide (c = LF)) as [->|Hc]; simpl.
  - unfold nl. rewrite !app_cons, app_nil_l. by rewrite <-IH.
  - destruct ls as [|l ls]; simpl in *.
    + rewrite app_nil_l in *. by rewrite <-IH.
    + rewrite !app_cons. by rewrite <-IH.
Qed.

Lemma lines_app (s1 s2 : string) :
  lines (s1 +:+ s2) =
    ((lines s1).1 ++ (lines ((lines s1).2 +:+ s2)).1,
     (lines ((lines s1).2 +:+ s2)).2).
Proof.
  induction s1 as [|c s1 IH].
  { rewrite app_nil_l. simpl. rewrite app_nil_l. by destruct (lines s2). }
  rewrite app_cons. simpl. rewrite IH.
  destruct (lines s1) as [ls1 rest1]; simpl.
  destruct (decide (c = LF)) as [->|Hc]; [done|].
  destruct ls1 as [|l ls1]; simpl; [|done].
  destruct (lines (rest1 +:+ s2)) as [ls2 rest2]; simpl.
  rewrite decide_False by done. by destruct ls2.
Qed.

Lemma lines_join (ls : list string) :
  Forall terminated ls → lines (join ls) = (ls, EmptyString).
Proof.
  induction 1 as [|l ls (t & -> & Ht) _ IH]; [done|].
  simpl. by rewrite lines_line_app, IH.
Qed.

Lemma scan_app (ls1 ls2 : list string) (st : locals) :
  scan (ls1 ++ ls2) st =
    ((scan ls2 (scan ls1 st).1).1,
     (scan ls1 st).2 ++ (scan ls2 (scan ls1 st).1).2).
Proof.
  revert st. induction ls1 as [|l ls1 IH]; intros st; simpl.
  { by destruct (scan ls2 st). }
  destruct (on_line l st) as [st1 sent1]. rewrite IH.
  destruct (scan ls1 st1) as [st2 sent2]; simpl.
  destruct (scan ls2 st2) as [st3 sent3]; simpl.
  by rewrite (assoc_L (++)).
Qed.

(** *** Where the values sent come from *)

Lemma weave_app (pairs1 pairs2 : list (string * string)) :
  weave (pairs1 ++ pairs2) = weave pairs1 +:+ weave pairs2.
Proof.
  induction pairs1 as [|[g v] pairs1 IH]; [done|].
  simpl. by rewrite IH, !app_assoc.
Qed.

Lemma scan_weave (ls : list string) (st : locals) (gap : string) :
  (inEvent st = false → event st = EmptyString) →
  ∃ pairs gap',
    gap +:+ event st +:+ join ls =
      weave pairs +:+ gap' +:+ event (scan ls st).1 ∧
    pairs.*2 = (scan ls st).2 ∧
    (inEvent (scan ls st).1 = false → event (scan ls st).1 = EmptyString).
Proof.
  revert st gap. induction ls as [|l ls IH]; intros st gap Hst; simpl.
  { exists [], gap. by rewrite app_nil_r. }
  unfold on_line. destruct (is_begin l) eqn:Hb.
  - (* the buffer, if any, is dropped: it joins the gap *)
    destruct (IH (mkLocals l true) (gap +:+ event st)) as (pairs & g & Heq & Hsent & Hfin);
      [done|].
    simpl in *. destruct (scan ls (mkLocals l true)) as [st' sent']; simpl in *.
    exists pairs, g. by rewrite <-Heq, !app_assoc.
  - destruct (inEvent st) eqn:Hin.
    + destruct (is_end l) eqn:He.
      * destruct (IH (mkLocals EmptyString false) EmptyString)
          as (pairs & g & Heq & Hsent & Hfin); [done|].
        simpl in *.
        destruct (scan ls (mkLocals EmptyString false)) as [st' sent']; simpl in *.
        exists ((gap, event st +:+ l) :: pairs), g. split_and!; [|by rewrite fmap_cons, Hsent|done].
        simpl. rewrite !app_nil_l in Heq. by rewrite Heq, !app_assoc.
      * destruct (IH (mkLocals (event st +:+ l) true) gap)
          as (pairs & g & Heq & Hsent & Hfin); [done|].
        simpl in *.
        destruct (scan ls (mkLocals (event st +:+ l) true)) as [st' sent'];
          simpl in *.
        exists pairs, g. by rewrite <-Heq, !app_assoc.
    + destruct (IH st (gap +:+ l)) as (pairs & g & Heq & Hsent & Hfin);
        [by intros _; apply Hst|].
      destruct (scan ls st) as [st' sent']; simpl in *.
      exists pairs, g. split_and!; [|done..].
      rewrite <-Heq, (Hst eq_refl), !app_nil_l. by rewrite !app_assoc.
Qed.

(** X1. Every value [FetchICS] sends, the sentinel of a failed read
    apart, is a piece of the body: the body is a gap, the first value,
    a gap, the second value, and so on, then a rest. The values are sent
    in the order they have in the body and do not overlap. *)
Theorem FetchICS_values_from_body (url data : string) (e : error) :
  ∃ pairs rest,
    data = weave pairs +:+ rest ∧
    FetchICS url (GetOk (mkReader data e)) =
      Some (pairs.*2 ++ read_sentinel url e).
Proof.
  rewrite FetchICS_scan. simpl.
  destruct (scan_weave (lines data).1 Idle EmptyString)
    as (pairs & g & Heq & Hsent & Hfin); [done|].
  simpl in Heq. rewrite !app_nil_l in Heq.
  pose proof (lines_join_rest data) as Hdata. rewrite Heq in Hdata.
  destruct (scan (lines data).1 Idle) as [st sent]; simpl in *. subst sent.
  destruct e; simpl.
  - destruct (decide (event st = EmptyString)) as [Hev|Hev].
    + exists pairs, (g +:+ (lines data).2). split; [|done].
      etrans; [exact Hdata|]. rewrite Hev, app_nil_r. by rewrite !app_assoc.
    + exists (pairs ++ [(g, event st)]), (lines data).2. split.
      * etrans; [exact Hdata|]. rewrite weave_app. simpl.
        rewrite app_nil_r. by rewrite !app_assoc.
      * by rewrite fmap_app, List.app_nil_r.
  - exists pairs, (g +:+ event st +:+ (lines data).2). split; [|done].
    etrans; [exact Hdata|]. by rewrite !app_assoc.
Qed.

(** *** How many values are sent *)

Lemma scan_counts (ls : list string) (st : locals) :
  length (scan ls st).2 + (if inEvent (scan ls st).1 then 1 else 0) ≤
    length (begin_lines ls) + (if inEvent st then 1 else 0) ∧
  length (scan ls st).2 ≤ length (end_lines ls).
Proof.
  revert st. induction ls as [|l ls IH]; intros st; simpl; [lia|].
  unfold begin_lines, end_lines in *. rewrite !filter_cons.
  unfold on_line.
  destruct (is_begin l) eqn:Hb; [rewrite (is_begin_not_end l Hb)|];
    [|destruct (inEvent st) eqn:Hin; [destruct (is_end l) eqn:He|]];
    match goal with
    | |- context [scan ls ?st1] =>
        destruct (IH st1) as [IH1 IH2]; destruct (scan ls st1) as [st' sent']
    end;
    simpl in *; rewrite ?Hin in *; repeat case_decide; try done;
    simpl in *; try lia; destruct (inEvent st), (inEvent st'); lia.
Qed.

(** X2. [FetchICS] sends at most one value for each begin-marker line of
    the body, and at most one for each end-marker line but for the last
    value (the partial unit or the sentinel of a failed read). A body
    without a begin-marker line makes it send nothing but that
    sentinel. *)
Theorem FetchICS_count (url data : string) (e : error) :
  ∃ sent,
    FetchICS url (GetOk (mkReader data e)) = Some sent ∧
    length sent ≤
      length (begin_lines (lines data).1) + length (read_sentinel url e) ∧
    length sent ≤ length (end_lines (lines data).1) + 1 ∧
    (begin_lines (lines data).1 = [] → sent = read_sentinel url e).
Proof.
  rewrite FetchICS_scan. simpl.
  destruct (scan_counts (lines data).1 Idle) as [Hb He].
  destruct (scan_lines_between data) as [Hst _].
  destruct (scan (lines data).1 Idle) as [st sent]; simpl in *.
  assert (Hlast : length (at_end url e st) ≤ 1 ∧
                  length (at_end url e st) ≤
                    (if inEvent st then 1 else 0) + length (read_sentinel url e) ∧
                  (inEvent st = false → at_end url e st = read_sentinel url e)).
  { unfold between_lines in Hst. destruct e; simpl.
    - destruct (inEvent st).
      + rewrite decide_False by by apply partial_unit_nonempty. simpl.
        split_and!; [lia..|done].
      + rewrite decide_True by done. simpl. split_and!; [lia..|done].
    - split_and!; [lia..|done]. }
  destruct Hlast as (Hl1 & Hl2 & Hl3).
  eexists. split; [done|]. rewrite length_app. split_and!; [lia..|].
  intros Hnone. rewrite Hnone in Hb. simpl in Hb.
  destruct sent; simpl in *; [|lia].
  apply Hl3. destruct (inEvent st); [lia|done].
Qed.

(** *** A well-formed feed *)

Lemma is_begin_terminated (l : string) : is_begin l = true → terminated l.
Proof.
  unfold is_begin.
  intros [->%bool_decide_eq_true| ->%bool_decide_eq_true]%orb_true_iff.
  - by exists ("BEGIN:VEVENT" +:+ String CR EmptyString).
  - by exists "BEGIN:VEVENT".
Qed.

Lemma is_end_terminated (l : string) : is_end l = true → terminated l.
Proof.
  unfold is_end.
  intros [->%bool_decide_eq_true| ->%bool_decide_eq_true]%orb_true_iff.
  - by exists ("END:VEVENT" +:+ String CR EmptyString).
  - by exists "END:VEVENT".
Qed.

Lemma is_end_not_begin (l : string) : is_end l = true → is_begin l = false.
Proof.
  intros He. destruct (is_begin l) eqn:Hb; [|done].
  by rewrite (is_begin_not_end l Hb) in He.
Qed.

Lemma scan_ordinary (mid : list string) (buffer : string) :
  Forall ordinary mid →
  scan mid (mkLocals buffer true) = (mkLocals (buffer +:+ join mid) true, []).
Proof.
  intros Hmid. revert buffer.
  induction Hmid as [|l mid (_ & Hb & He) _ IH]; intros buffer; simpl.
  { by rewrite app_nil_r. }
  unfold on_line. rewrite Hb, He. simpl. rewrite IH. by rewrite app_assoc.
Qed.

Lemma well_formed_terminated (i : item) :
  well_formed i → Forall terminated (item_lines i).
Proof.
  destruct i as [line|b mid e]; simpl.
  - intros [? _]. by repeat constructor.
  - intros (Hb & Hmid & He). constructor; [by apply is_begin_terminated|].
    apply Forall_app. split.
    + eapply Forall_impl; [done|]. by intros l [? _].
    + repeat constructor. by apply is_end_terminated.
Qed.

Lemma scan_item (i : item) :
  well_formed i → scan (item_lines i) Idle = (Idle, item_units i).
Proof.
  destruct i as [line|b mid e]; simpl.
  - intros [_ Hb]. unfold on_line. by rewrite Hb.
  - intros (Hb & Hmid & He). unfold on_line at 1. rewrite Hb.
    rewrite scan_app, scan_ordinary by done. simpl.
    unfold on_line. rewrite (is_end_not_begin e He), He. simpl.
    rewrite join_app. simpl. by rewrite GoStringFacts.app_nil_r, !app_assoc.
Qed.

Lemma scan_items (items : list item) :
  Forall well_formed items →
  scan (items ≫= item_lines) Idle = (Idle, items ≫= item_units).
Proof.
  induction 1 as [|i items Hi _ IH]; [done|].
  rewrite !bind_cons, scan_app, (scan_item i Hi). simpl. by rewrite IH.
Qed.

(** X3. For a feed made of events (a begin-marker line, lines that are
    neither marker, an end-marker line) and of lines outside of events
    that are not begin markers, [FetchICS] sends exactly the events, each
    with all its lines, in the order of the feed, and drops the lines
    outside of them. *)
Theorem FetchICS_well_formed_feed (url : string) (items : list item)
    (e : error) :
  Forall well_formed items →
  FetchICS url (GetOk (mkReader (feed_body items) e)) =
    Some ((items ≫= item_units) ++ read_sentinel url e).
Proof.
  intros Hitems. rewrite FetchICS_scan. simpl. unfold feed_body.
  rewrite lines_join.
  - simpl. rewrite (scan_items items Hitems). by destruct e.
  - induction Hitems as [|i items Hi _ IH]; [constructor|].
    rewrite bind_cons. apply Forall_app. split; [|done].
    by apply well_formed_terminated.
Qed.

Lemma FetchICS_well_formed_feed_witness :
  FetchICS "u"
    (GetOk (mkReader
       (feed_body [Outside ("BEGIN:VCALENDAR" +:+ nl);
                   Event BEGIN_LF ["SUMMARY:Canada Day" +:+ nl] END_LF;
                   Outside ("END:VCALENDAR" +:+ nl)]) EOF)) =
  Some [BEGIN_LF +:+ ("SUMMARY:Canada Day" +:+ nl) +:+ END_LF].
Proof.
  rewrite FetchICS_well_formed_feed; [reflexivity|].
  repeat constructor; by eexists.
Defined.

(** *** Streaming *)

(** X4. What [FetchICS] has sent when the body is cut at some byte is
    the beginning of what it sends for any longer body: a value, once
    sent, does not depend on the bytes that follow. *)
Theorem FetchICS_prefix (url data1 data2 : string) (e : error) :
  ∃ units rest,
    FetchICS url (GetOk (mkReader data1 ErrRead)) =
      Some (units ++ ["Error reading response body: " +:+ url]) ∧
    FetchICS url (GetOk (mkReader (data1 +:+ data2) e)) =
      Some (units ++ rest).
Proof.
  rewrite !FetchICS_scan. simpl. rewrite lines_app. simpl.
  rewrite scan_app.
  destruct (scan (lines data1).1 Idle) as [st1 sent1]; simpl.
  destruct (scan _ st1) as [st2 sent2]; simpl.
  exists sent1, (sent2 ++ at_end url e st2). by rewrite (assoc_L (++)).
Qed.

End FeedFacts.

(** ** Fetching and summarising a calendar *)

Module SummaryFacts.
Import GoString GoStringFacts Fetcher FetcherFacts Feed FeedFacts Ical Summary.

#[local] Arguments Nat.div : simpl never.

Lemma Split_lines (s : string) :
  Split s LF = (chomp <$> (lines s).1) ++ [(lines s).2].
Proof.
  induction s as [|c s IH]; [done|].
  simpl. rewrite IH. destruct (lines s) as [ls rest]; simpl.
  destruct (decide (c = LF)) as [->|Hc]; [done|].
  destruct ls as [|l ls]; simpl; [done|].
  f_equal. destruct l; simpl; [by rewrite decide_False|done].
Qed.

(** X5. [fetchCalendar] and [FetchICS] on the same response. When
    [fetchCalendar] returns a body and no error, every value [FetchICS]
    sends is a piece of that body, in order, and none is a sentinel. When
    it returns an error the body it returns is empty, whatever was read,
    and the last value [FetchICS] sends is the sentinel of that error. *)
Theorem fetchCalendar_FetchICS (url : string) (get : Response) :
  match fetchCalendar get with
  | (body, None) =>
      ∃ pairs rest,
        body = weave pairs +:+ rest ∧ FetchICS url get = Some pairs.*2
  | (body, Some GetError) =>
      body = EmptyString ∧
      FetchICS url get = Some ["Error fetching URL: " +:+ url]
  | (body, Some ReadError) =>
      body = EmptyString ∧
      ∃ units, FetchICS url get =
                 Some (units ++ ["Error reading response body: " +:+ url])
  end.
Proof.
  destruct get as [|[data e]]; [done|].
  rewrite FetchICS_scan. unfold fetchCalendar, ReadAll. simpl.
  destruct (scan_weave (lines data).1 Idle EmptyString)
    as (pairs & g & Heq & Hsent & Hfin); [done|].
  simpl in Heq. rewrite !app_nil_l in Heq.
  pose proof (lines_join_rest data) as Hdata. rewrite Heq in Hdata.
  destruct (scan (lines data).1 Idle) as [st sent]; simpl in *. subst sent.
  destruct e; simpl; [|by eauto].
  destruct (decide (event st = EmptyString)) as [Hev|Hev].
  - exists pairs, (g +:+ (lines data).2). split; [|by rewrite List.app_nil_r].
    etrans; [exact Hdata|]. rewrite Hev, app_nil_r. by rewrite !app_assoc.
  - exists (pairs ++ [(g, event st)]), (lines data).2. split.
    + etrans; [exact Hdata|]. rewrite weave_app. simpl.
      rewrite app_nil_r. by rewrite !app_assoc.
    + by rewrite fmap_app.
Qed.

(** *** The summary *)

Lemma summarised_indexes (n : nat) :
  NoDup (summarised n).*2 ∧
  Forall (λ i, i < n) (summarised n).*2 ∧
  length (summarised n) = n `min` 3.
Proof.
  unfold summarised.
  destruct (decide (n = 0)) as [->|Hn].
  { simpl. split_and!; [apply NoDup_nil_2|apply Forall_nil_2|done]. }
  destruct (decide (2 < n)) as [Hn2|Hn2].
  - rewrite decide_True by lia. simpl.
    assert (0 < n / 2) by (apply Nat.div_str_pos; lia).
    assert (n / 2 < n - 1) by (apply Nat.Div0.div_lt_upper_bound; lia).
    split_and!; [|repeat (apply Forall_cons; split; [lia|]); apply Forall_nil_2|lia].
    apply NoDup_cons. split.
    { rewrite !elem_of_cons, elem_of_nil. lia. }
    apply NoDup_cons. split.
    { rewrite !elem_of_cons, elem_of_nil. lia. }
    apply NoDup_singleton.
  - destruct (decide (2 ≤ n)); simpl.
    + split_and!; [|repeat (apply Forall_cons; split; [lia|]); apply Forall_nil_2|lia].
      apply NoDup_cons. split.
      { rewrite !elem_of_cons, elem_of_nil. lia. }
      apply NoDup_singleton.
    + split_and!; [apply NoDup_singleton|
                   repeat (apply Forall_cons; split; [lia|]); apply Forall_nil_2|lia].
Qed.

Lemma printEventSummary_line (h : heap) (events : list ptr) (index : nat)
    (position : string) :
  Forall (λ e, is_Some (vevents h !! e)) events → index < length events →
  printEventSummary h events index position =
    Some (summary_line h events (position, index)).
Proof.
  intros Hevents Hindex. unfold printEventSummary, summary_line. simpl.
  destruct (lookup_lt_is_Some_2 events index Hindex) as [event Hevent].
  rewrite Hevent. simpl.
  rewrite Forall_forall in Hevents.
  destruct (Hevents event) as [ev Hev]; [by eapply list_elem_of_lookup_2|].
  unfold GetProperty. rewrite Hev. simpl. by destruct (find _ _).
Qed.

(** X6. For a calendar that parsed, [printCalendarSummary] does not
    panic: it reads no index out of range. It prints the number of line
    feeds of the text plus one as the number of lines (the bytes after
    the last line feed count as a line, also when there are none), then
    the number of events, then the summaries of the first event, of the
    middle one when there are more than two, and of the last one when
    there are at least two: at most three events, no event twice, and an
    event without SUMMARY is passed over. *)
Theorem printCalendarSummary_prints (h : heap) (cal : ptr)
    (events : list ptr) (calendarData : string) :
  Events h cal = Some events →
  Forall (λ e, is_Some (vevents h !! e)) events →
  printCalendarSummary h (Parsed cal) calendarData =
    Some (["Total number of lines: " +:+
             pretty (S (length (lines calendarData).1)) +:+ nl;
           "Total number of events: " +:+ pretty (length events) +:+ nl] ++
          (summarised (length events) ≫= summary_line h events)) ∧
  NoDup (summarised (length events)).*2 ∧
  Forall (λ i, i < length events) (summarised (length events)).*2 ∧
  length (summarised (length events)) = length events `min` 3.
Proof.
  intros Hcal Hevents. split; [|apply summarised_indexes].
  unfold printCalendarSummary. rewrite Hcal. simpl.
  rewrite Split_lines, length_app, length_fmap. simpl.
  replace (length (lines calendarData).1 + 1) with
    (S (length (lines calendarData).1)) by lia.
  unfold summarised.
  destruct (decide (length events = 0)), (decide (2 < length events)),
    (decide (2 ≤ length events)); try lia; simpl;
    rewrite ?(printEventSummary_line h events 0) by (done || lia);
    rewrite ?(printEventSummary_line h events (length events / 2))
      by (done || (apply Nat.div_lt; lia));
    rewrite ?(printEventSummary_line h events (length events - 1))
      by (done || lia);
    simpl; by rewrite ?List.app_nil_r.
Qed.

Lemma printCalendarSummary_prints_witness :
  printCalendarSummary Combiner.mockHeap (Parsed 1)
    ("BEGIN:VCALENDAR" +:+ nl +:+ "END:VCALENDAR") =
  Some ["Total number of lines: 2" +:+ nl;
        "Total number of events: 2" +:+ nl;
        "First Event (Entry #1): SUMMARY: Colombian New Year" +:+ nl;
        "Last Event (Entry #2): SUMMARY: Colombian Independence Day" +:+ nl].
Proof.
  destruct (printCalendarSummary_prints Combiner.mockHeap 1 [1; 2]%positive
              ("BEGIN:VCALENDAR" +:+ nl +:+ "END:VCALENDAR")) as [-> _].
  - reflexivity.
  - repeat constructor; by eexists.
  - by vm_compute.
Defined.

End SummaryFacts.

(** ** More on the calendar combiner *)

Module CombinerMoreFacts.
Import Ical Combiner CombinerFacts CombinerMore.

(** X7. The calendar [combineCalendars] returns holds events only, and
    the properties of a new calendar: the components of the inputs that
    are not events (time zones among them) and the calendar properties of
    the inputs are not carried over. *)
Theorem combineCalendars_keeps_events_only sort_Slice (h h' : heap)
    (cal1 cal2 combinedCal : ptr) :
  is_Some (calendars h !! cal1) → is_Some (calendars h !! cal2) →
  combineCalendars sort_Slice h cal1 cal2 = Some (h', combinedCal) →
  ∃ events,
    calendars h' !! combinedCal =
      Some (mkCalendar (CompVEvent <$> events) NewCalendarProperties).
Proof.
  intros [c1 Hc1] [c2 Hc2].
  rewrite (combineCalendars_eq _ h cal1 cal2 (events_of c1) (events_of c2))
    by (apply Events_Some; eauto).
  destruct (sort_Slice _ _) as [events|]; [|done]. simpl.
  intros [= <- <-]. exists events. simpl. by rewrite lookup_insert_eq.
Qed.

Lemma combineCalendars_keeps_events_only_witness :
  ∃ h', combineCalendars insertionSort zonedHeap 1 2 = Some (h', 3%positive) ∧
        calendars h' !! 3%positive =
          Some (mkCalendar (CompVEvent <$> [3; 1; 4; 2]%positive)
                  NewCalendarProperties).
Proof.
  destruct (combineCalendars insertionSort zonedHeap 1 2) as [[h' c]|] eqn:Hc;
    [|by vm_compute in Hc].
  assert (c = 3%positive) as -> by (vm_compute in Hc; congruence).
  exists h'. split; [done|].
  destruct (combineCalendars_keeps_events_only insertionSort zonedHeap h' 1 2 3)
    as (events & Hevents); [by eexists..|done|].
  rewrite Hevents. vm_compute in Hc. injection Hc as <-.
  vm_compute in Hevents. by vm_compute.
Defined.

Lemma startTime_le_antisym (h : heap) (x y : ptr) :
  startTime_le h x y → startTime_le h y x → startTime h x = startTime h y.
Proof.
  intros (sx & sy & Hx & Hy & Hxy) (sy' & sx' & Hy' & Hx' & Hyx).
  rewrite Hx in Hx'. rewrite Hy in Hy'. injection Hx' as <-. injection Hy' as <-.
  rewrite Hx, Hy. f_equal. by apply (anti_symm String.le).
Qed.

Lemma sorted_events (sort_Slice : list ptr → (ptr → ptr → option bool) →
                                  option (list ptr))
    (h : heap) (events : list ptr) :
  sorts sort_Slice →
  Forall (λ e, is_Some (startTime h e)) events →
  ∃ sorted, sort_Slice events (less h) = Some sorted ∧ sorted ≡ₚ events ∧
            StronglySorted (startTime_le h) sorted.
Proof.
  intros Hsort Hstart.
  destruct (Hsort events (less h)) as (sorted & Hs & Hperm & Hsorted).
  - by apply less_total.
  - by apply less_irrefl.
  - by apply less_trans.
  - by apply less_negtrans.
  - exists sorted. split_and!; [done..|].
    apply (sorted_by_less h events Hstart); [|done].
    intros e. by rewrite Hperm.
Qed.

(** X8. When no two events of the two calendars have the same DTSTART
    value, the result of [combineCalendars] is determined: it is the
    same for every sort that meets the contract of [sort.Slice], and the
    same for the two calendars taken in the other order. *)
Theorem combineCalendars_determined sort_Slice sort_Slice' (h : heap)
    (cal1 cal2 : ptr) (events1 events2 : list ptr) :
  sorts sort_Slice → sorts sort_Slice' →
  Events h cal1 = Some events1 → Events h cal2 = Some events2 →
  Forall (λ e, is_Some (startTime h e)) (events1 ++ events2) →
  distinct_startTimes h (events1 ++ events2) →
  is_Some (combineCalendars sort_Slice h cal1 cal2) ∧
  combineCalendars sort_Slice h cal1 cal2 =
    combineCalendars sort_Slice' h cal1 cal2 ∧
  combineCalendars sort_Slice h cal1 cal2 =
    combineCalendars sort_Slice h cal2 cal1.
Proof.
  intros Hsort Hsort' Hev1 Hev2 Hstart Hdistinct.
  assert (Hstart' : Forall (λ e, is_Some (startTime h e)) (events2 ++ events1)).
  { apply Forall_app. apply Forall_app in Hstart. tauto. }
  rewrite (combineCalendars_eq sort_Slice h cal1 cal2 events1 events2),
    (combineCalendars_eq sort_Slice' h cal1 cal2 events1 events2),
    (combineCalendars_eq sort_Slice h cal2 cal1 events2 events1) by done.
  destruct (sorted_events sort_Slice h _ Hsort Hstart)
    as (sorted & -> & Hperm & Hsorted).
  destruct (sorted_events sort_Slice' h _ Hsort' Hstart)
    as (sorted' & -> & Hperm' & Hsorted').
  destruct (sorted_events sort_Slice h _ Hsort Hstart')
    as (sorted'' & -> & Hperm'' & Hsorted'').
  assert (Hunique : ∀ l, l ≡ₚ events1 ++ events2 →
            StronglySorted (startTime_le h) l → sorted = l).
  { intros l Hl Hsl.
    apply (StronglySorted_unique_strong (startTime_le h)); [|done..|].
    - intros x y Hx Hy Hxy Hyx. apply Hdistinct.
      + by rewrite <-Hperm.
      + by rewrite <-Hl.
      + by apply startTime_le_antisym.
    - by rewrite Hperm, Hl. }
  assert (sorted = sorted') as <- by by apply Hunique.
  assert (sorted = sorted'') as <-.
  { apply Hunique; [|done]. by rewrite Hperm'', Permutation_app_comm. }
  simpl. by split_and!.
Qed.

Lemma combineCalendars_determined_witness :
  combineCalendars insertionSort zonedHeap 1 2 =
    combineCalendars reversingSort zonedHeap 1 2 ∧
  combineCalendars insertionSort zonedHeap 1 2 =
    combineCalendars insertionSort zonedHeap 2 1.
Proof.
  destruct (combineCalendars_determined insertionSort reversingSort zonedHeap
              1 2 [1; 2]%positive [3; 4]%positive) as (_ & Hsort & Horder).
  - apply insertionSort_sorts.
  - apply reversingSort_sorts.
  - reflexivity.
  - reflexivity.
  - repeat constructor; by eexists.
  - intros x y Hx Hy.
    repeat (apply elem_of_cons in Hx as [->|Hx]);
      repeat (apply elem_of_cons in Hy as [->|Hy]);
      try (by apply elem_of_nil in Hx); try (by apply elem_of_nil in Hy);
      by vm_compute.
  - by split.
Defined.

End CombinerMoreFacts.

(** ** More on the fan-in aggregator *)

Module AggregatorMoreFacts.
Import Fetcher Aggregator AggregatorFacts AggregatorMore.

Lemma merged_extend (sources : list (list string)) (out : list string) :
  merged sources out → merged (sources ++ [[]]) out.
Proof.
  induction 1 as [n|sources i source value out Hi _ IH].
  - replace (replicate n [] ++ [[]]) with (replicate (S n) (@nil string));
      [constructor|].
    by rewrite replicate_S_end.
  - rewrite <-insert_app_l by by eapply lookup_lt_Some.
    constructor; [|done]. by apply lookup_app_l_Some.
Qed.

Lemma merged_sublist (sources : list (list string)) (out : list string)
    (i : nat) (source : list string) :
  merged sources out → sources !! i = Some source → source `sublist_of` out.
Proof.
  intros Hm. revert i source.
  induction Hm as [n|sources j source' value out Hj _ IH]; intros i source Hi.
  - apply lookup_replicate in Hi as [-> _]. apply sublist_nil_l.
  - destruct (decide (i = j)) as [->|Hij].
    + rewrite list_lookup_insert_eq in Hi by by eapply lookup_lt_Some.
      injection Hi as <-. apply sublist_app; [by eapply IH|done].
    + rewrite list_lookup_insert_ne in Hi by done.
      apply sublist_inserts_r. by eapply IH.
Qed.

Lemma drop_cons_lookup (urls : list string) (n : nat) (url : string)
    (us : list string) :
  drop n urls = url :: us → urls !! n = Some url ∧ drop (S n) urls = us.
Proof.
  revert n. induction urls as [|u urls IH]; intros [|n]; simpl; try done.
  - by intros [= -> ->].
  - apply IH.
Qed.

Section facts.
Context (net : string → Response) (config : Config) (urls : list string).

Lemma init_provenance : provenance net urls (init urls).
Proof.
  exists []. split_and!; [apply (merged_nil 0)|done|done|].
  by intros us [= <-].
Qed.

Lemma step_provenance (g : goroutine) (s s' : state) :
  provenance net urls s → step net config g s = Some s' →
  provenance net urls s'.
Proof.
  intros (sent & Hm & Hlen & Hsent & Hlaunch). unfold step.
  destruct s as [h fs c w cl p r wr]. simpl in *.
  destruct p; [done|]. destruct g as [|i|].
  - (* the handler *)
    unfold step_handler. simpl.
    destruct h as [[|url us]| | | |]; simpl;
      try (intros [= <-]; exists sent; by split_and!).
    + intros [= <-].
      destruct (drop_cons_lookup urls (length fs) url us (Hlaunch _ eq_refl))
        as [Hurl Hdrop].
      exists (sent ++ [[]]). simpl. split_and!.
      * by apply merged_extend.
      * rewrite !length_app. simpl. lia.
      * intros j values pc url' Hj Hpc Hurl'.
        destruct (decide (j < length fs)) as [Hlt|Hge].
        -- rewrite lookup_app_l in Hj by lia.
           rewrite lookup_app_l in Hpc by lia. by eapply Hsent.
        -- assert (j = length fs ∨ length fs < j) as [->|Hgt] by lia.
           ++ rewrite (list_lookup_middle sent [] [] (length fs)) in Hj by lia.
              rewrite (list_lookup_middle fs [] _ (length fs)) in Hpc by done.
              by simplify_eq.
           ++ rewrite lookup_ge_None_2 in Hj; [done|].
              rewrite length_app. simpl. lia.
      * intros us' [= <-]. by rewrite length_app, Nat.add_1_r.
    + destruct (decide (cl = 0)); [done|].
      intros [= <-]. exists sent. by split_and!.
  - (* a fetcher *)
    unfold step_fetch. simpl.
    destruct (fs !! i) as [[[|value pending]|]|] eqn:Hi; [| |done..].
    + destruct w; intros [= <-]; [exists sent; by split_and!|].
      exists sent. simpl.
      split_and!; [done|by rewrite length_insert| |by rewrite length_insert].
      intros j values pc url Hj Hpc Hurl.
      destruct (decide (j = i)) as [->|Hji].
      * rewrite list_lookup_insert_eq in Hpc by by eapply lookup_lt_Some.
        injection Hpc as <-. by rewrite <-(Hsent i values _ url Hj Hi Hurl).
      * rewrite list_lookup_insert_ne in Hpc by done. by eapply Hsent.
    + destruct (decide (cl = 0)); [|intros [= <-]; exists sent; by split_and!].
      destruct h; try done. intros [= <-].
      destruct (lookup_lt_is_Some_2 sent i) as [values Hvalues].
      { rewrite Hlen. by eapply lookup_lt_Some. }
      exists (<[i := values ++ [value]]> sent). simpl. split_and!.
      * by constructor.
      * by rewrite !length_insert.
      * intros j values' pc url Hj Hpc Hurl.
        destruct (decide (j = i)) as [->|Hji].
        -- rewrite list_lookup_insert_eq in Hj by by eapply lookup_lt_Some.
           rewrite list_lookup_insert_eq in Hpc by by eapply lookup_lt_Some.
           injection Hj as <-. injection Hpc as <-. simpl.
           rewrite <-(Hsent i values _ url Hvalues Hi Hurl). simpl.
           by rewrite <-(assoc_L (++)).
        -- rewrite list_lookup_insert_ne in Hj by done.
           rewrite list_lookup_insert_ne in Hpc by done. by eapply Hsent.
      * done.
  - (* the closing goroutine *)
    unfold step_closer. simpl.
    destruct c; simpl; try done.
    + destruct (decide (w = 0)); [|done].
      intros [= <-]. exists sent. by split_and!.
    + destruct (decide (cl = 0)); intros [= <-]; exists sent; by split_and!.
Qed.

Lemma run_provenance (schedule : list goroutine) (s s' : state) :
  provenance net urls s → run net config schedule s = Some s' →
  provenance net urls s'.
Proof.
  revert s. induction schedule as [|g schedule IH]; intros s Hs; simpl.
  { by intros [= <-]. }
  destruct (step net config g s) as [s1|] eqn:Hstep; [|done]. simpl.
  apply IH. by eapply step_provenance.
Qed.

End facts.

(** X9. When the handler of [aggregateICS] has returned, the values it
    received are an interleaving of the sequences [FetchICS] sends for
    the URLs: the values of each source were received in the order they
    were sent, whatever the schedule; the order between sources is not
    fixed. *)
Theorem aggregateICS_keeps_source_order (net : string → Response)
    (config : Config) (schedule : list goroutine) (s : state) :
  aggregateICS net config schedule = Some s →
  handler s = Returned →
  merged (sends net <$> icsURLs) (received s) ∧
  ∀ url, url ∈ icsURLs → sends net url `sublist_of` received s.
Proof.
  unfold aggregateICS. generalize icsURLs. intros urls Hrun Hret.
  pose proof (run_invariant net config urls schedule _ s
                (init_invariant net config urls) Hrun) as Hinv.
  destruct (run_provenance net config urls schedule _ s
              (init_provenance net urls) Hrun)
    as (sent & Hm & Hlen & Hsent & _).
  destruct Hinv as [_ Hwg Hl _ Hc Hh]. rewrite Hret in Hh, Hl.
  destruct Hh as [_ Hcl]. simpl in Hl.
  assert (Hdone : Forall (FetchDone =.) (fetchers s)).
  { apply none_running. rewrite <-Hwg.
    destruct (closer s); break_hyps; congruence. }
  assert (sent = sends net <$> urls) as ->.
  { apply list_eq_same_length with (length urls);
      [rewrite length_fmap; lia|lia|].
    intros i values values' Hi Hvalues Hvalues'.
    apply list_lookup_fmap_Some in Hvalues' as (url & -> & Hurl).
    destruct (lookup_lt_is_Some_2 (fetchers s) i) as [pc Hpc]; [lia|].
    rewrite <-(Hsent i values pc url Hvalues Hpc Hurl).
    rewrite Forall_forall in Hdone.
    rewrite <-(Hdone pc) by by eapply list_elem_of_lookup_2.
    simpl. by rewrite app_nil_r. }
  split; [done|]. intros url [i Hi]%list_elem_of_lookup.
  eapply (merged_sublist _ _ i); [done|].
  by rewrite list_lookup_fmap, Hi.
Qed.

Lemma aggregateICS_keeps_source_order_witness :
  sends mockNet ColombianHolidaysURL `sublist_of` received mockFinal.
Proof.
  destruct (aggregateICS_keeps_source_order mockNet mockConfig mockSchedule
              mockFinal) as [_ Hsub]; [by vm_compute|reflexivity|].
  apply Hsub. unfold icsURLs. apply list_elem_of_here.
Defined.

(** X10. A fetcher of [aggregateICS] never waits for another fetcher or
    for the closing goroutine, and its sends never panic. In every state
    a run reaches, a fetcher that has returned from [FetchICS] can call
    [wg.Done()], and a fetcher with a value to send can send it once the
    handler is in [c.Stream]: the channel is still open. Before the
    handler is in [c.Stream], the send waits. *)
Theorem fetcher_waits_for_handler_only (net : string → Response)
    (config : Config) (schedule : list goroutine) (s : state) (i : nat)
    (pending : list string) :
  aggregateICS net config schedule = Some s →
  fetchers s !! i = Some (Sending pending) →
  closes s = 0 ∧
  (pending = [] ∨ handler s = Streaming →
     ∃ s', step net config (Fetch i) s = Some s' ∧ panicked s' = false) ∧
  (pending ≠ [] → handler s ≠ Streaming →
     step net config (Fetch i) s = None).
Proof.
  unfold aggregateICS. intros Hrun Hi.
  pose proof (run_invariant net config icsURLs schedule _ s
                (init_invariant net config icsURLs) Hrun) as Hinv.
  destruct Hinv as [Hp Hwg _ _ Hc _].
  pose proof (sum_list_insert running (fetchers s) i _ FetchDone Hi) as Hrun'.
  simpl in Hrun'.
  assert (Hopen : closes s = 0).
  { destruct (closer s); break_hyps; (done || lia). }
  unfold step, step_fetch. rewrite Hp, Hi, Hopen. split_and!; [done| |].
  - intros Hcan. destruct pending as [|value pending].
    + destruct (wg s) eqn:Hw; [lia|]. by eexists.
    + destruct Hcan as [?| ->]; [done|]. simpl. by eexists.
  - intros Hpending Hhandler. destruct pending; [done|]. simpl.
    by destruct (handler s).
Qed.

Lemma fetcher_waits_for_handler_only_witness :
  ∃ s', step mockNet mockConfig (Fetch 0)
          (default (init []) (aggregateICS mockNet mockConfig
                                [Handler; Handler; Handler; Handler])) =
        Some s' ∧ panicked s' = false.
Proof.
  destruct (fetcher_waits_for_handler_only mockNet mockConfig
              [Handler; Handler; Handler; Handler]
              (default (init []) (aggregateICS mockNet mockConfig
                                    [Handler; Handler; Handler; Handler]))
              0 (sends mockNet ColombianHolidaysURL))
    as (_ & Hcan & _); [by vm_compute..|].
  apply Hcan. right. by vm_compute.
Defined.

End AggregatorMoreFacts.
